(** * Game.tsx: the simulation core of the tower-defense game

    A shallow embedding of [src/Game.tsx]: the wave director ([spawnWave]),
    the auto-fire controller (the [setInterval] callback) and the main game
    loop (the [Konva.Animation] frame callback), together with the React
    effects that guard and trigger them.

    Numbers.  A JavaScript [number] is an IEEE 754 binary64 value, so
    coordinates, radii, speeds and time deltas are Rocq's primitive
    [float]s, with [PrimFloat.sqrt] for [Math.sqrt] and [x * x] for
    [Math.pow(x, 2)].  Identifiers ([Date.now()] and its increments), wave
    numbers, group counts, the core's hit points and damage amounts are
    integers far below 2^53, where binary64 arithmetic is exact: they are
    [Z].  An enemy's hit points are such an integer, or [NaN] (see [jsnum]). *)

From Stdlib Require Import ZArith List String Floats Lia Bool.
From stdpp Require Import base gmap sets list.

Local Open Scope Z_scope.

(** ** Type definitions *)

(** An integer-valued [number], or the value that [undefined] becomes in
    arithmetic.  Reading a property that does not exist yields [undefined];
    the program only ever subtracts from such a value and compares it with
    [0], where [undefined] and [NaN] behave alike, so one constructor stands
    for both. *)
Inductive jsnum : Type :=
  | Num (z : Z)
  | NaN.

(** [a -= d] *)
Definition jsnum_sub (a : jsnum) (d : Z) : jsnum :=
  match a with
  | Num z => Num (z - d)
  | NaN => NaN
  end.

(** [a <= 0] *)
Definition jsnum_le0 (a : jsnum) : bool :=
  match a with
  | Num z => z <=? 0
  | NaN => false
  end.

(** [interface EnemyData { type: string; count: number; }] *)
Record EnemyData : Type := mkEnemyData {
  ed_type : string;
  ed_count : Z
}.

(** [interface WaveData { wave: number; enemies: EnemyData[]; }] *)
Record WaveData : Type := mkWaveData {
  wd_wave : Z;
  wd_enemies : list EnemyData
}.

(** [interface Enemy { id; x; y; hp; type; radius }] *)
Record Enemy : Type := mkEnemy {
  e_id : Z;
  e_x : float;
  e_y : float;
  e_hp : jsnum;
  e_type : string;
  e_radius : float
}.

(** [interface Bullet { id; x; y; dx; dy; radius }] *)
Record Bullet : Type := mkBullet {
  b_id : Z;
  b_x : float;
  b_y : float;
  b_dx : float;
  b_dy : float;
  b_radius : float
}.

(** ['playing' | 'gameover' | 'victory'] *)
Inductive GameState : Type :=
  | playing
  | gameover
  | victory.

Definition GameState_eqb (a b : GameState) : bool :=
  match a, b with
  | playing, playing | gameover, gameover | victory, victory => true
  | _, _ => false
  end.

(** ** The enemy stat table *)

Record Stats : Type := mkStats {
  st_hp : jsnum;
  st_radius : float;
  st_speed : float
}.

Definition stats_normal : Stats := mkStats (Num 10) 15%float 50%float.
Definition stats_fast : Stats := mkStats (Num 5) 10%float 80%float.
Definition stats_tank : Stats := mkStats (Num 50) 25%float 30%float.

(** [ENEMY_STATS] is an object literal, so [ENEMY_STATS[key]] also finds
    the properties that every object inherits from [Object.prototype].
    These are their names (the standard ones and the legacy accessors that
    browsers provide). *)
Definition Object_prototype_keys : list string :=
  [ "constructor"; "hasOwnProperty"; "isPrototypeOf"; "propertyIsEnumerable";
    "toLocaleString"; "toString"; "valueOf"; "__proto__";
    "__defineGetter__"; "__defineSetter__";
    "__lookupGetter__"; "__lookupSetter__" ]%string.

Definition inherited_key (key : string) : bool :=
  existsb (String.eqb key) Object_prototype_keys.

(** What [stats.hp], [stats.radius] and [stats.speed] read when [stats] is
    one of the inherited values (a function, or [Object.prototype] itself):
    none of them has these properties, and [undefined] in the arithmetic of
    this program is [NaN]. *)
Definition stats_inherited : Stats := mkStats NaN nan nan.

(** [ENEMY_STATS[key] || ENEMY_STATS.normal].  The three own properties and
    the inherited values are all truthy; only a key found nowhere on the
    prototype chain gives [undefined] and so the [normal] profile. *)
Definition ENEMY_STATS_or_normal (key : string) : Stats :=
  if String.eqb key "normal"%string then stats_normal
  else if String.eqb key "fast"%string then stats_fast
  else if String.eqb key "tank"%string then stats_tank
  else if inherited_key key then stats_inherited
  else stats_normal.

(** The keys of the table itself. *)
Definition in_stat_table (key : string) : bool :=
  String.eqb key "normal"%string || String.eqb key "fast"%string
  || String.eqb key "tank"%string.

(** ** Component state *)

(** The six [useState] cells of the component. *)
Record State : Type := mkState {
  coreHp : Z;
  waves : list WaveData;
  currentWave : Z;
  enemies : list Enemy;
  bullets : list Bullet;
  gameState : GameState
}.

Definition initial : State := mkState 100 [] 0 [] [] playing.

Definition setGameState (g : GameState) (s : State) : State :=
  mkState (coreHp s) (waves s) (currentWave s) (enemies s) (bullets s) g.

Definition setEnemies (es : list Enemy) (s : State) : State :=
  mkState (coreHp s) (waves s) (currentWave s) es (bullets s) (gameState s).

Definition setBullets (bs : list Bullet) (s : State) : State :=
  mkState (coreHp s) (waves s) (currentWave s) (enemies s) bs (gameState s).

Definition setCurrentWave (n : Z) (s : State) : State :=
  mkState (coreHp s) (waves s) n (enemies s) (bullets s) (gameState s).

Definition setCoreHp (h : Z) (s : State) : State :=
  mkState h (waves s) (currentWave s) (enemies s) (bullets s) (gameState s).

Definition setWaves (ws : list WaveData) (s : State) : State :=
  mkState (coreHp s) ws (currentWave s) (enemies s) (bullets s) (gameState s).

(** ** Floating-point helpers *)

(** [Math.pow(v, 2)] *)
Definition pow2 (v : float) : float := (v * v)%float.

(** [Math.floor(v) === k], for an integer [k] given with its successor
    ([lo] is [k], [hi] is [k + 1]): the floor of [v] is [k] exactly when
    [k <= v < k + 1]. *)
Definition floor_is (v lo hi : float) : bool :=
  ((lo <=? v) && (v <? hi))%float.

(** [v == 0]: the IEEE comparison, true of both zeros. *)
Definition is_zero (v : float) : bool := (v =? 0)%float.

Section Viewport.

(** [window.innerWidth] and [window.innerHeight] *)
Variables stageWidth stageHeight : float.

Definition coreX : float := (stageWidth / 2)%float.
Definition coreY : float := (stageHeight / 2)%float.
Definition coreRadius : float := 30%float.

(** *** Wave director *)

Section WaveDirector.

(** [Date.now()] at the call of [spawnWave], and the successive results of
    [Math.random()] during that call ([random k] is call number [k]). *)
Variable now : Z.
Variable random : nat -> float.

(** The body of the [for] loop for the enemy number [j] of the wave
    (counting from 0 over all groups): it draws [random (2 * j)] for the
    side and [random (2 * j + 1)] for the point on that side. *)
Definition spawn_position (stats : Stats) (j : nat) : float * float :=
  let v := (random (2 * j)%nat * 4)%float in
  let r := random (2 * j + 1)%nat in
  if floor_is v 0 1 then ((r * stageWidth)%float, (- st_radius stats)%float)
  else if floor_is v 1 2 then ((stageWidth + st_radius stats)%float, (r * stageHeight)%float)
  else if floor_is v 2 3 then ((r * stageWidth)%float, (stageHeight + st_radius stats)%float)
  else ((- st_radius stats)%float, (r * stageHeight)%float).

Definition newEnemy (ty : string) (j : nat) : Enemy :=
  let stats := ENEMY_STATS_or_normal ty in
  let p := spawn_position stats j in
  mkEnemy (now + Z.of_nat j) (fst p) (snd p) (st_hp stats) ty (st_radius stats).

(** [for (let i = 0; i < count; i++) newEnemies.push(...)], from enemy
    number [j] on. *)
Fixpoint spawnGroup (ty : string) (count : nat) (j : nat) : list Enemy :=
  match count with
  | O => []
  | S c => newEnemy ty j :: spawnGroup ty c (S j)
  end.

(** [waveData.enemies.forEach(enemyGroup => ...)].  A count that is not
    positive runs the loop zero times. *)
Fixpoint spawnGroups (groups : list EnemyData) (j : nat) : list Enemy :=
  match groups with
  | [] => []
  | g :: rest =>
      let n := Z.to_nat (ed_count g) in
      spawnGroup (ed_type g) n j ++ spawnGroups rest (j + n)%nat
  end.

(** [waves.find(w => w.wave === waveNumber)] *)
Definition find_wave (ws : list WaveData) (waveNumber : Z) : option WaveData :=
  List.find (fun w => wd_wave w =? waveNumber) ws.

Definition spawnWave (waveNumber : Z) (s : State) : State :=
  match find_wave (waves s) waveNumber with
  | None => setGameState victory s
  | Some waveData =>
      setCurrentWave waveNumber (setEnemies (spawnGroups (wd_enemies waveData) 0) s)
  end.

(** The effect with dependencies [[waves, currentWave]]:
    [if (waves.length > 0 && currentWave === 0) spawnWave(1)]. *)
Definition bootstrap (s : State) : State :=
  if Nat.ltb 0 (length (waves s)) && (currentWave s =? 0)
  then spawnWave 1 s
  else s.

(** React runs that effect again after a render in which one of its
    dependencies changed; a frame never changes [waves]. *)
Definition rerun_bootstrap (before after : State) : State :=
  if currentWave before =? currentWave after then after else bootstrap after.

End WaveDirector.

(** *** Auto-fire *)

(** [Math.sqrt(Math.pow(enemy.x - coreX, 2) + Math.pow(enemy.y - coreY, 2))] *)
Definition distToCore (e : Enemy) : float :=
  sqrt (pow2 (e_x e - coreX) + pow2 (e_y e - coreY))%float.

(** The callback of [enemies.forEach] in the fire controller, on the pair
    [(nearestEnemy, minDistance)]. *)
Definition nearer (acc : option Enemy * float) (e : Enemy) : option Enemy * float :=
  let d := distToCore e in
  if (d <? snd acc)%float then (Some e, d) else acc.

Definition nearestEnemy (es : list Enemy) : option Enemy :=
  fst (fold_left nearer es (None, infinity)).

Definition newBullet (now : Z) (target : Enemy) : Bullet :=
  let d := distToCore target in
  mkBullet now coreX coreY
           ((e_x target - coreX) / d)%float ((e_y target - coreY) / d)%float 5%float.

(** The interval callback, under the guard of its effect
    ([if (gameState !== 'playing') return], so no interval is installed in
    the other states). *)
Definition fireTick (now : Z) (s : State) : State :=
  if negb (GameState_eqb (gameState s) playing) then s
  else match enemies s with
       | [] => s
       | _ :: _ =>
           match nearestEnemy (enemies s) with
           | Some target => setBullets (bullets s ++ [newBullet now target]) s
           | None => s
           end
       end.

(** *** Main game loop *)

Definition bulletSpeed : float := 350%float.

(** [bullet.x += bullet.dx * bulletSpeed * delta; bullet.y += ...] *)
Definition advance (delta : float) (b : Bullet) : Bullet :=
  mkBullet (b_id b)
           (b_x b + b_dx b * bulletSpeed * delta)%float
           (b_y b + b_dy b * bulletSpeed * delta)%float
           (b_dx b) (b_dy b) (b_radius b).

(** [bullet.x < 0 || bullet.x > stageWidth || bullet.y < 0 || bullet.y > stageHeight] *)
Definition out_of_bounds (b : Bullet) : bool :=
  ((b_x b <? 0) || (stageWidth <? b_x b) || (b_y b <? 0) || (stageHeight <? b_y b))%float.

(** [dist < enemy.radius + bullet.radius] *)
Definition overlaps (b : Bullet) (e : Enemy) : bool :=
  (sqrt (pow2 (b_x b - e_x e) + pow2 (b_y b - e_y e)) <? e_radius e + b_radius b)%float.

(** [bulletsToRemove] (a [Set] of bullet ids) and [enemiesToDamage] (a
    [Map] from enemy id to accumulated damage). *)
Record Marks : Type := mkMarks {
  bulletsToRemove : gset Z;
  enemiesToDamage : gmap Z Z
}.

(** The callback of the inner [updatedEnemies.forEach], for the bullet [b]
    (already advanced). *)
Definition collide (b : Bullet) (m : Marks) (e : Enemy) : Marks :=
  if overlaps b e
  then mkMarks ({[ b_id b ]} ∪ bulletsToRemove m)
               (<[ e_id e := default 0 (enemiesToDamage m !! e_id e) + 10 ]>
                  (enemiesToDamage m))
  else m.

(** The callback of [updatedBullets.forEach]: the bullet object after it,
    and the marks. *)
Definition bullet_callback (delta : float) (es : list Enemy) (m : Marks) (b : Bullet)
  : Bullet * Marks :=
  let b' := advance delta b in
  let m1 := if out_of_bounds b'
            then mkMarks ({[ b_id b' ]} ∪ bulletsToRemove m) (enemiesToDamage m)
            else m in
  (b', fold_left (collide b') es m1).

Fixpoint forEach_bullet (delta : float) (es : list Enemy) (bs : list Bullet) (m : Marks)
  : list Bullet * Marks :=
  match bs with
  | [] => ([], m)
  | b :: rest =>
      let r := bullet_callback delta es m b in
      let k := forEach_bullet delta es rest (snd r) in
      (fst r :: fst k, snd k)
  end.

(** [if (enemiesToDamage.has(enemy.id)) enemy.hp -= enemiesToDamage.get(enemy.id)] *)
Definition apply_damage (dmg : gmap Z Z) (e : Enemy) : Enemy :=
  match dmg !! e_id e with
  | Some d => mkEnemy (e_id e) (e_x e) (e_y e) (jsnum_sub (e_hp e) d) (e_type e) (e_radius e)
  | None => e
  end.

(** Which of the three exits of the enemy callback is taken, for an enemy
    whose damage has been applied.  [Moves d] is the only exit that
    divides, and [d] is the divisor. *)
Inductive Outcome : Type :=
  | Killed
  | ReachedCore
  | Moves (d : float).

Definition outcome (e : Enemy) : Outcome :=
  if jsnum_le0 (e_hp e) then Killed
  else if (distToCore e <? coreRadius + e_radius e)%float then ReachedCore
  else Moves (distToCore e).

(** [enemy.x += ((coreX - enemy.x) / distToCore) * stats.speed * delta; ...] *)
Definition move (delta : float) (e : Enemy) (d : float) : Enemy :=
  let stats := ENEMY_STATS_or_normal (e_type e) in
  mkEnemy (e_id e)
          (e_x e + (coreX - e_x e) / d * st_speed stats * delta)%float
          (e_y e + (coreY - e_y e) / d * st_speed stats * delta)%float
          (e_hp e) (e_type e) (e_radius e).

(** [enemiesToRemove] and [newCoreHp]. *)
Record Toll : Type := mkToll {
  enemiesToRemove : gset Z;
  newCoreHp : Z
}.

(** The callback of the second [updatedEnemies.forEach]: the enemy object
    after it, and the toll. *)
Definition enemy_callback (delta : float) (dmg : gmap Z Z) (t : Toll) (e : Enemy)
  : Enemy * Toll :=
  let e1 := apply_damage dmg e in
  match outcome e1 with
  | Killed => (e1, mkToll ({[ e_id e1 ]} ∪ enemiesToRemove t) (newCoreHp t))
  | ReachedCore => (e1, mkToll ({[ e_id e1 ]} ∪ enemiesToRemove t) (newCoreHp t - 10))
  | Moves d => (move delta e1 d, t)
  end.

Fixpoint forEach_enemy (delta : float) (dmg : gmap Z Z) (es : list Enemy) (t : Toll)
  : list Enemy * Toll :=
  match es with
  | [] => ([], t)
  | e :: rest =>
      let r := enemy_callback delta dmg t e in
      let k := forEach_enemy delta dmg rest (snd r) in
      (fst r :: fst k, snd k)
  end.

(** [prev.filter(b => !bulletsToRemove.has(b.id))] and its twin for enemies.
    The objects of [prev] are the ones the loops have just mutated. *)
Definition keep_bullets (rm : gset Z) (bs : list Bullet) : list Bullet :=
  List.filter (fun b => negb (bool_decide (b_id b ∈ rm))) bs.

Definition keep_enemies (rm : gset Z) (es : list Enemy) : list Enemy :=
  List.filter (fun e => negb (bool_decide (e_id e ∈ rm))) es.

(** Everything the frame callback computes before it touches the state. *)
Record Pass : Type := mkPass {
  updatedBullets : list Bullet;
  marks : Marks;
  updatedEnemies : list Enemy;
  toll : Toll
}.

Definition simulate (timeDiff : float) (s : State) : Pass :=
  let delta := (timeDiff / 1000)%float in
  let bp := forEach_bullet delta (enemies s) (bullets s) (mkMarks ∅ ∅) in
  let ep := forEach_enemy delta (enemiesToDamage (snd bp)) (enemies s)
                          (mkToll ∅ (coreHp s)) in
  mkPass (fst bp) (snd bp) (fst ep) (snd ep).

(** The "Update states" block. *)
Definition commit (p : Pass) (s : State) : State :=
  let s1 := setBullets (keep_bullets (bulletsToRemove (marks p)) (updatedBullets p)) s in
  let s2 := setEnemies (keep_enemies (enemiesToRemove (toll p)) (updatedEnemies p)) s1 in
  if newCoreHp (toll p) =? coreHp s then s2 else setCoreHp (newCoreHp (toll p)) s2.

(** What the "Check game state" block decides. *)
Inductive Verdict : Type :=
  | GameOver
  | NextWave (waveNumber : Z)
  | Continue.

Definition verdict (p : Pass) (s : State) : Verdict :=
  if newCoreHp (toll p) <=? 0 then GameOver
  else if Nat.eqb (length (keep_enemies (enemiesToRemove (toll p)) (updatedEnemies p))) 0
          && Nat.ltb 0 (length (waves s))
       then NextWave (currentWave s + 1)
       else Continue.

(** The frame callback, under the guard of its effect
    ([if (!layerRef.current || gameState !== 'playing') return], so no
    animation runs in the other states).  [now] and [random] serve the call
    of [spawnWave], if there is one. *)
Definition frame (now : Z) (random : nat -> float) (timeDiff : float) (s : State) : State :=
  if negb (GameState_eqb (gameState s) playing) then s
  else
    let p := simulate timeDiff s in
    match verdict p s with
    | GameOver => setGameState gameover (commit p s)
    | NextWave n => spawnWave now random n (commit p s)
    | Continue => commit p s
    end.

(** The wave that a frame asks the wave director for, if any. *)
Definition requested_wave (timeDiff : float) (s : State) : option Z :=
  if negb (GameState_eqb (gameState s) playing) then None
  else match verdict (simulate timeDiff s) s with
       | NextWave n => Some n
       | _ => None
       end.

(** *** The component as a transition system *)

(** The catalog arrives once, in the state the component was mounted in
    (frames and fire ticks before that leave it as it is, see
    [frame_initial] and [fireTick_initial]); [setWaves(data)] changes a
    dependency of the bootstrap effect, which then runs.  Afterwards the
    state changes by fire ticks and by frames; a frame is followed by the
    bootstrap effect when it changed [currentWave]. *)
Inductive step : State -> State -> Prop :=
  | step_fetch (data : list WaveData) (now : Z) (random : nat -> float) :
      step initial (bootstrap now random (setWaves data initial))
  | step_fire (now : Z) (s : State) :
      step s (fireTick now s)
  | step_frame (now : Z) (random : nat -> float) (timeDiff : float)
               (now' : Z) (random' : nat -> float) (s : State) :
      step s (rerun_bootstrap now' random' s (frame now random timeDiff s)).

Inductive reachable : State -> Prop :=
  | reachable_initial : reachable initial
  | reachable_step (s s' : State) : reachable s -> step s s' -> reachable s'.

(** *** Quantities that the statements below speak of *)

(** The bullets of [bs] that, once advanced, overlap the enemy [e]. *)
Definition overlapping (delta : float) (e : Enemy) (bs : list Bullet) : list Bullet :=
  List.filter (fun b => overlaps (advance delta b) e) bs.

(** How many enemies with id [i] the bullet [b] overlaps. *)
Definition hit_count (b : Bullet) (i : Z) (es : list Enemy) : nat :=
  length (List.filter (fun e => (e_id e =? i) && overlaps b e) es).

(** How many (bullet, enemy) overlaps involve an enemy with id [i]. *)
Fixpoint total_hits (delta : float) (i : Z) (es : list Enemy) (bs : list Bullet) : nat :=
  match bs with
  | [] => O
  | b :: rest => (hit_count (advance delta b) i es + total_hits delta i es rest)%nat
  end.

(** The enemy object after the enemy callback. *)
Definition update_enemy (delta : float) (dmg : gmap Z Z) (e : Enemy) : Enemy :=
  match outcome (apply_damage dmg e) with
  | Moves d => move delta (apply_damage dmg e) d
  | _ => apply_damage dmg e
  end.

(** The enemy leaves through the core-collision exit. *)
Definition reaches_core (dmg : gmap Z Z) (e : Enemy) : bool :=
  match outcome (apply_damage dmg e) with ReachedCore => true | _ => false end.

(** The enemy leaves through one of the two exits that mark it for removal. *)
Definition resolved (dmg : gmap Z Z) (e : Enemy) : bool :=
  match outcome (apply_damage dmg e) with Moves _ => false | _ => true end.

(** A sufficient condition for the enemy never to divide by zero: its
    radius keeps [coreRadius + radius] above zero, or one of its
    coordinates is not a number (and then neither is its distance to the
    core).  Every enemy of a reachable state satisfies it
    ([reachable_sound]). *)
Definition sound_enemy (e : Enemy) : bool :=
  (0 <? coreRadius + e_radius e)%float || is_nan (e_x e) || is_nan (e_y e).

(** The stat table as a total function on kinds, the way the
    specification words it: the profile of the kind, and the [normal]
    profile for every kind that the table does not list.  To be compared
    with [ENEMY_STATS_or_normal]. *)
Definition stat_profile (kind : string) : Stats :=
  if String.eqb kind "fast"%string then stats_fast
  else if String.eqb kind "tank"%string then stats_tank
  else stats_normal.

Definition sum_counts (groups : list EnemyData) : Z :=
  fold_right (fun g acc => ed_count g + acc) 0 groups.

(** The enemy has the radius of its kind and lies on one of the four
    lines that run outside the viewport at that distance from an edge. *)
Definition on_edge (e : Enemy) : Prop :=
  let r := st_radius (stat_profile (e_type e)) in
  e_radius e = r
  /\ (e_y e = (- r)%float \/ e_x e = (stageWidth + r)%float
      \/ e_y e = (stageHeight + r)%float \/ e_x e = (- r)%float).

(** The viewport test of the game loop, for an enemy's position. *)
Definition outside_viewport (e : Enemy) : bool :=
  ((e_x e <? 0) || (stageWidth <? e_x e) || (e_y e <? 0) || (stageHeight <? e_y e))%float.

(** What the pair [(nearestEnemy, minDistance)] of the fire controller
    satisfies once its loop has gone through [seen]. *)
Definition Nearest (seen : list Enemy) (acc : option Enemy * float) : Prop :=
  (forall x, In x seen -> (distToCore x <? snd acc)%float = false)
  /\ match fst acc with
     | None => snd acc = infinity
     | Some t =>
         snd acc = distToCore t
         /\ exists pre post,
              seen = pre ++ t :: post
              /\ forall x, In x pre -> (distToCore x <=? distToCore t)%float = false
     end.

(** *** Rendering *)

(** The props of a [<Circle>] and of a [<Rect>] that the component returns
    (the core's stroke, which is constant, is left out).  The core has no
    [key]. *)
Record CircleProps : Type := mkCircle {
  c_key : option Z;
  c_x : float;
  c_y : float;
  c_radius : float;
  c_fill : string
}.

Record RectProps : Type := mkRect {
  r_key : Z;
  r_x : float;
  r_y : float;
  r_width : float;
  r_height : float;
  r_fill : string
}.

(** What the component returns: the stage size, the three groups of shapes
    of the layer, the two numbers of the heads-up display, and the
    overlays ([gameState === 'gameover' && ...], [gameState === 'victory'
    && ...]), each present or not. *)
Record View : Type := mkView {
  v_width : float;
  v_height : float;
  v_core : CircleProps;
  v_enemies : list RectProps;
  v_bullets : list CircleProps;
  v_coreHp : Z;
  v_wave : Z;
  v_overlays : list string
}.

(** [enemy.type === 'tank' ? 'purple' : enemy.type === 'fast' ? 'orange' : 'red'] *)
Definition enemy_fill (ty : string) : string :=
  if String.eqb ty "tank"%string then "purple"%string
  else if String.eqb ty "fast"%string then "orange"%string
  else "red"%string.

Definition enemy_rect (e : Enemy) : RectProps :=
  mkRect (e_id e) (e_x e - e_radius e)%float (e_y e - e_radius e)%float
         (e_radius e * 2)%float (e_radius e * 2)%float (enemy_fill (e_type e)).

Definition bullet_circle (b : Bullet) : CircleProps :=
  mkCircle (Some (b_id b)) (b_x b) (b_y b) (b_radius b) "yellow"%string.

Definition render (s : State) : View :=
  mkView stageWidth stageHeight
         (mkCircle None coreX coreY coreRadius "lightblue"%string)
         (List.map enemy_rect (enemies s))
         (List.map bullet_circle (bullets s))
         (coreHp s) (currentWave s)
         ((if GameState_eqb (gameState s) gameover then [ "GAME OVER"%string ] else [])
          ++ (if GameState_eqb (gameState s) victory then [ "VICTORY!"%string ] else [])).

(** *** Further quantities *)

(** The bullet [b], advanced, stays inside the viewport and overlaps none
    of the enemies [es]. *)
Definition flies_on (delta : float) (es : list Enemy) (b : Bullet) : bool :=
  negb (out_of_bounds (advance delta b))
  && forallb (fun e => negb (overlaps (advance delta b) e)) es.

(** A bullet both of whose coordinates are, or are about to become, not a
    number: the bullet that [newBullet] makes for a target at distance
    zero is one. *)
Definition lost_bullet (b : Bullet) : bool :=
  (is_nan (b_x b) || is_nan (b_dx b)) && (is_nan (b_y b) || is_nan (b_dy b)).

(** An enemy whose hit points and radius are both not a number: what
    [newEnemy] makes for a kind that names an inherited property. *)
Definition ghost (e : Enemy) : bool :=
  match e_hp e with
  | NaN => is_nan (e_radius e)
  | Num _ => false
  end.

(** The enemy agrees with the stat lookup of its kind: it has that radius,
    and its hit points are the initial ones less a multiple of 10 (or
    neither is a number). *)
Definition true_to_kind (e : Enemy) : Prop :=
  let stats := ENEMY_STATS_or_normal (e_type e) in
  e_radius e = st_radius stats
  /\ match e_hp e, st_hp stats with
     | Num h, Num h0 => exists k, 0 <= k /\ h = h0 - 10 * k
     | NaN, NaN => True
     | _, _ => False
     end.

(** How the scalar cells of a state hang together. *)
Definition Coherent (s : State) : Prop :=
  0 <= currentWave s
  /\ (exists k, 0 <= k /\ coreHp s = 100 - 10 * k)
  /\ (gameState s = gameover <-> coreHp s <= 0)
  /\ (waves s = [] -> s = initial)
  /\ (currentWave s = 0 ->
        s = initial
        \/ (waves s <> [] /\ gameState s = victory /\ enemies s = [] /\ bullets s = []
            /\ coreHp s = 100 /\ find_wave (waves s) 1 = None))
  /\ (currentWave s <> 0 -> exists w, find_wave (waves s) (currentWave s) = Some w)
  /\ (gameState s = victory ->
        find_wave (waves s) (currentWave s + 1) = None /\ enemies s = []).

End Viewport.

(** ** Concrete states *)

Definition demo_width : float := 800%float.
Definition demo_height : float := 600%float.

(** A random source that always answers [0.5]: side 2, the bottom edge,
    at the middle of it. *)
Definition demo_random (k : nat) : float := 0.5%float.

Definition demo_catalog : list WaveData :=
  [ mkWaveData 1 [ mkEnemyData "normal" 2 ];
    mkWaveData 2 [ mkEnemyData "fast" 1; mkEnemyData "tank" 1; mkEnemyData "boss" 1 ] ].

(** Three bullets over a [normal] enemy that also touches the core, and a
    [tank] farther out. *)
Definition demo_grunt : Enemy := mkEnemy 1 430 300 (Num 10) "normal" 15.
Definition demo_tank : Enemy := mkEnemy 2 700 300 (Num 50) "tank" 25.
Definition demo_volley : State :=
  mkState 100 demo_catalog 1 [ demo_grunt; demo_tank ]
          [ mkBullet 11 420 300 1 0 5; mkBullet 12 425 300 1 0 5; mkBullet 13 430 300 1 0 5 ]
          playing.

(** An enemy exactly at the core's center, the core being at its last 10
    hit points. *)
Definition demo_intruder : Enemy := mkEnemy 7 400 300 (Num 10) "normal" 15.
Definition demo_last_stand : State :=
  mkState 10 demo_catalog 1 [ demo_intruder ] [] playing.

(** A catalog with one [fast] enemy, the state once it has arrived (the
    enemy is at the middle of the bottom edge, 310 from the core), and the
    state after a frame of 3.875 seconds, which at speed 80 carries the
    enemy exactly onto the core's center. *)
Definition demo_solo_catalog : list WaveData := [ mkWaveData 1 [ mkEnemyData "fast" 1 ] ].
Definition demo_arrival : State :=
  bootstrap demo_width demo_height 1000 demo_random (setWaves demo_solo_catalog initial).
Definition demo_on_core : State :=
  rerun_bootstrap demo_width demo_height 1000 demo_random demo_arrival
                  (frame demo_width demo_height 1000 demo_random 3875 demo_arrival).
Definition demo_runner : Enemy := mkEnemy 1000 400 300 (Num 5) "fast" 10.

(** The same after the game is lost. *)
Definition demo_over : State :=
  mkState 0 demo_catalog 1 [ demo_tank ] [ mkBullet 11 420 300 1 0 5 ] gameover.

(** Wave 1 cleared. *)
Definition demo_cleared : State := mkState 100 demo_catalog 1 [] [] playing.

(** Wave 2 on the field, all three enemies on the horizontal line through
    the core; the second and the third are equally near. *)
Definition demo_far : Enemy := mkEnemy 21 700 300 (Num 5) "fast" 10.
Definition demo_near : Enemy := mkEnemy 22 500 300 (Num 50) "tank" 25.
Definition demo_near' : Enemy := mkEnemy 23 300 300 (Num 10) "boss" 15.
Definition demo_wave2 : State :=
  mkState 100 demo_catalog 2 [ demo_far; demo_near; demo_near' ] [] playing.

(** A bullet that the next second carries across the right edge, into an
    enemy that waits just outside. *)
Definition demo_stray : Bullet := mkBullet 31 500 300 1 0 5.
Definition demo_lurker : Enemy := mkEnemy 32 840 300 (Num 50) "tank" 25.
Definition demo_edge : State :=
  mkState 100 demo_catalog 2 [ demo_lurker ] [ demo_stray ] playing.

(** A catalog whose only wave has one enemy of kind ["toString"]. *)
Definition demo_odd_catalog : list WaveData :=
  [ mkWaveData 1 [ mkEnemyData "toString" 1 ] ].

(** Wave 1 of [demo_catalog] as the arrival of the catalog leaves it. *)
Definition demo_wave1 : State :=
  bootstrap demo_width demo_height 1000 demo_random (setWaves demo_catalog initial).

(** The state after the enemy of [demo_on_core] has hit the core: the
    catalog has no wave 2. *)
Definition demo_won : State :=
  rerun_bootstrap demo_width demo_height 1000 demo_random demo_on_core
                  (frame demo_width demo_height 1000 demo_random 16 demo_on_core).

(** A fire tick while the enemy sits on the core. *)
Definition demo_misfire : State := fireTick demo_width demo_height 77 demo_on_core.
Definition demo_dud : Bullet := mkBullet 77 400 300 nan nan 5.

(** A bullet in flight, far from the only enemy. *)
Definition demo_shot : Bullet := mkBullet 41 420 300 1 0 5.
Definition demo_calm : State :=
  mkState 100 demo_catalog 2 [ demo_tank ] [ demo_shot ] playing.

(** The field after [demo_odd_catalog] has arrived. *)
Definition demo_haunted : State :=
  bootstrap demo_width demo_height 1000 demo_random (setWaves demo_odd_catalog initial).
Definition demo_ghost : Enemy := mkEnemy 1000 400 nan NaN "toString" nan.

(** A catalog with two records numbered 2. *)
Definition demo_twice_first : WaveData := mkWaveData 2 [ mkEnemyData "fast" 1 ].
Definition demo_twice_catalog : list WaveData :=
  [ mkWaveData 1 [ mkEnemyData "normal" 1 ];
    demo_twice_first;
    mkWaveData 2 [ mkEnemyData "tank" 5 ] ].
Definition demo_twice : State := mkState 100 demo_twice_catalog 1 [] [] playing.

(** * Properties *)

(** ** Comparison with a zero *)

Lemma is_zero_ltb (d z : float) :
  is_zero d = true -> (d <? z)%float = (0 <? z)%float.
Proof.
  unfold is_zero. rewrite FloatAxioms.eqb_spec, !FloatAxioms.ltb_spec.
  unfold SFeqb, SFltb.
  change (Prim2SF 0) with (S754_zero false).
  destruct (Prim2SF d) as [s| s | |s m e]; simpl; try discriminate.
  - reflexivity.
  - destruct s; discriminate.
  - destruct s; discriminate.
Qed.

(** ** The order of floating-point numbers *)

Ltac order_cases :=
  repeat match goal with
  | |- context [Pos.compare_cont Eq ?a ?b] =>
      change (Pos.compare_cont Eq a b) with (Pos.compare a b)
  | H : context [Pos.compare_cont Eq ?a ?b] |- _ =>
      change (Pos.compare_cont Eq a b) with (Pos.compare a b) in H
  end;
  repeat match goal with
  | H : context [Z.compare ?a ?b] |- _ => destruct (Z.compare_spec a b); try discriminate H
  | |- context [Z.compare ?a ?b] => destruct (Z.compare_spec a b)
  | H : context [Pos.compare ?a ?b] |- _ => destruct (Pos.compare_spec a b); try discriminate H
  | |- context [Pos.compare ?a ?b] => destruct (Pos.compare_spec a b)
  end;
  simpl in *; try discriminate; try reflexivity; try lia.

Lemma SFcompare_Lt_trans (x y z : spec_float) :
  SFcompare x y = Some Lt -> SFcompare y z = Some Lt -> SFcompare x z = Some Lt.
Proof.
  destruct x as [[]|[]| |[] mx ex], y as [[]|[]| |[] my ey], z as [[]|[]| |[] mz ez];
    simpl; try discriminate; try reflexivity; intros Hxy Hyz; order_cases.
Qed.

Lemma SFcompare_Eq_Lt_trans (x y z : spec_float) :
  SFcompare x y = Some Eq -> SFcompare y z = Some Lt -> SFcompare x z = Some Lt.
Proof.
  destruct x as [[]|[]| |[] mx ex], y as [[]|[]| |[] my ey], z as [[]|[]| |[] mz ez];
    simpl; try discriminate; try reflexivity; intros Hxy Hyz; order_cases.
Qed.

Lemma SFcompare_Lt_irrefl (x : spec_float) : SFcompare x x <> Some Lt.
Proof.
  destruct x as [[]|[]| |[] mx ex]; simpl; try discriminate; order_cases.
Qed.

Lemma ltb_trans (x y z : float) :
  (x <? y)%float = true -> (y <? z)%float = true -> (x <? z)%float = true.
Proof.
  rewrite !FloatAxioms.ltb_spec. unfold SFltb.
  destruct (SFcompare (Prim2SF x) (Prim2SF y)) as [[]|] eqn:Hxy; try discriminate.
  destruct (SFcompare (Prim2SF y) (Prim2SF z)) as [[]|] eqn:Hyz; try discriminate.
  now rewrite (SFcompare_Lt_trans _ _ _ Hxy Hyz).
Qed.

Lemma leb_ltb_trans (x y z : float) :
  (x <=? y)%float = true -> (y <? z)%float = true -> (x <? z)%float = true.
Proof.
  rewrite FloatAxioms.leb_spec, !FloatAxioms.ltb_spec. unfold SFleb, SFltb.
  destruct (SFcompare (Prim2SF x) (Prim2SF y)) as [[]|] eqn:Hxy; try discriminate;
  destruct (SFcompare (Prim2SF y) (Prim2SF z)) as [[]|] eqn:Hyz; try discriminate; intros _ _.
  - now rewrite (SFcompare_Eq_Lt_trans _ _ _ Hxy Hyz).
  - now rewrite (SFcompare_Lt_trans _ _ _ Hxy Hyz).
Qed.

Lemma ltb_irrefl (x : float) : (x <? x)%float = false.
Proof.
  rewrite FloatAxioms.ltb_spec. unfold SFltb.
  destruct (SFcompare (Prim2SF x) (Prim2SF x)) as [[]|] eqn:Hxx; try reflexivity.
  now apply SFcompare_Lt_irrefl in Hxx.
Qed.

(** ** Not-a-number *)

Lemma SFcompare_refl (x : spec_float) : x <> S754_nan -> SFcompare x x = Some Eq.
Proof.
  destruct x as [[]|[]| |[] m e]; simpl; try congruence; intros _;
    rewrite Z.compare_refl; change (Pos.compare_cont Eq m m) with (Pos.compare m m);
    now rewrite Pos.compare_refl.
Qed.

Lemma is_nan_spec (v : float) : is_nan v = true <-> Prim2SF v = S754_nan.
Proof.
  unfold is_nan. rewrite FloatAxioms.eqb_spec. unfold SFeqb. split.
  - destruct (Prim2SF v) eqn:Hv; try reflexivity;
      rewrite SFcompare_refl by discriminate; discriminate.
  - now intros ->.
Qed.

Lemma is_nan_add_l (x y : float) : is_nan x = true -> is_nan (x + y) = true.
Proof.
  rewrite !is_nan_spec, FloatAxioms.add_spec. now intros ->.
Qed.

Lemma is_nan_add_r (x y : float) : is_nan y = true -> is_nan (x + y) = true.
Proof.
  rewrite !is_nan_spec, FloatAxioms.add_spec. intros ->.
  now destruct (Prim2SF x).
Qed.

Lemma is_nan_sub_l (x y : float) : is_nan x = true -> is_nan (x - y) = true.
Proof.
  rewrite !is_nan_spec, FloatAxioms.sub_spec. now intros ->.
Qed.

Lemma is_nan_mul_l (x y : float) : is_nan x = true -> is_nan (x * y) = true.
Proof.
  rewrite !is_nan_spec, FloatAxioms.mul_spec. now intros ->.
Qed.

Lemma is_nan_sqrt (x : float) : is_nan x = true -> is_nan (sqrt x) = true.
Proof.
  rewrite !is_nan_spec, FloatAxioms.sqrt_spec. now intros ->.
Qed.

Lemma is_nan_not_zero (x : float) : is_nan x = true -> (x =? 0)%float = false.
Proof.
  rewrite is_nan_spec, FloatAxioms.eqb_spec. now intros ->.
Qed.

Section ViewportFacts.

Variables stageWidth stageHeight : float.

Local Abbreviation distToCore := (distToCore stageWidth stageHeight).
Local Abbreviation out_of_bounds := (out_of_bounds stageWidth stageHeight).
Local Abbreviation outcome := (outcome stageWidth stageHeight).
Local Abbreviation move := (move stageWidth stageHeight).
Local Abbreviation enemy_callback := (enemy_callback stageWidth stageHeight).
Local Abbreviation forEach_enemy := (forEach_enemy stageWidth stageHeight).
Local Abbreviation bullet_callback := (bullet_callback stageWidth stageHeight).
Local Abbreviation forEach_bullet := (forEach_bullet stageWidth stageHeight).
Local Abbreviation simulate := (simulate stageWidth stageHeight).
Local Abbreviation frame := (frame stageWidth stageHeight).
Local Abbreviation requested_wave := (requested_wave stageWidth stageHeight).
Local Abbreviation fireTick := (fireTick stageWidth stageHeight).
Local Abbreviation nearestEnemy := (nearestEnemy stageWidth stageHeight).
Local Abbreviation nearer := (nearer stageWidth stageHeight).
Local Abbreviation newBullet := (newBullet stageWidth stageHeight).
Local Abbreviation spawnWave := (spawnWave stageWidth stageHeight).
Local Abbreviation spawnGroups := (spawnGroups stageWidth stageHeight).
Local Abbreviation spawnGroup := (spawnGroup stageWidth stageHeight).
Local Abbreviation newEnemy := (newEnemy stageWidth stageHeight).
Local Abbreviation spawn_position := (spawn_position stageWidth stageHeight).
Local Abbreviation bootstrap := (bootstrap stageWidth stageHeight).
Local Abbreviation rerun_bootstrap := (rerun_bootstrap stageWidth stageHeight).
Local Abbreviation step := (step stageWidth stageHeight).
Local Abbreviation reachable := (reachable stageWidth stageHeight).
Local Abbreviation update_enemy := (update_enemy stageWidth stageHeight).
Local Abbreviation reaches_core := (reaches_core stageWidth stageHeight).
Local Abbreviation resolved := (resolved stageWidth stageHeight).
Local Abbreviation on_edge := (on_edge stageWidth stageHeight).
Local Abbreviation outside_viewport := (outside_viewport stageWidth stageHeight).
Local Abbreviation coreX := (coreX stageWidth).
Local Abbreviation coreY := (coreY stageHeight).
Local Abbreviation Nearest := (Nearest stageWidth stageHeight).
Local Abbreviation flies_on := (flies_on stageWidth stageHeight).
Local Abbreviation render := (render stageWidth stageHeight).

(** ** The bullet loop *)

Lemma fst_forEach_bullet (delta : float) (es : list Enemy) (bs : list Bullet) :
  forall m, fst (forEach_bullet delta es bs m) = List.map (advance delta) bs.
Proof.
  induction bs as [|b bs IH]; intros m; simpl; [reflexivity|].
  now rewrite IH.
Qed.

Lemma collide_damage (b : Bullet) (i : Z) (es : list Enemy) :
  forall m,
    default 0 (enemiesToDamage (fold_left (collide b) es m) !! i)
    = default 0 (enemiesToDamage m !! i) + 10 * Z.of_nat (hit_count b i es).
Proof.
  unfold hit_count.
  induction es as [|e es IH]; intros m; simpl; [lia|].
  rewrite IH. unfold collide.
  destruct (overlaps b e) eqn:Hov; simpl.
  - rewrite lookup_insert.
    destruct (decide (e_id e = i)) as [->|Hne].
    + rewrite Z.eqb_refl. simpl. lia.
    + apply Z.eqb_neq in Hne. rewrite Hne. simpl. lia.
  - rewrite andb_false_r. lia.
Qed.

Lemma collide_removes (b : Bullet) (j : Z) (es : list Enemy) :
  forall m,
    j ∈ bulletsToRemove (fold_left (collide b) es m)
    <-> j ∈ bulletsToRemove m \/ (j = b_id b /\ existsb (overlaps b) es = true).
Proof.
  induction es as [|e es IH]; intros m; simpl.
  - split; [tauto|]. intros [H|[_ H]]; [exact H|discriminate].
  - rewrite IH. unfold collide.
    destruct (overlaps b e) eqn:Hov; simpl.
    + rewrite elem_of_union, elem_of_singleton. tauto.
    + tauto.
Qed.

Lemma forEach_bullet_damage (delta : float) (i : Z) (es : list Enemy) (bs : list Bullet) :
  forall m,
    default 0 (enemiesToDamage (snd (forEach_bullet delta es bs m)) !! i)
    = default 0 (enemiesToDamage m !! i) + 10 * Z.of_nat (total_hits delta i es bs).
Proof.
  induction bs as [|b bs IH]; intros m; simpl; [lia|].
  rewrite IH, collide_damage.
  destruct (out_of_bounds (advance delta b)); simpl; lia.
Qed.

Lemma forEach_bullet_removes (delta : float) (j : Z) (es : list Enemy) (bs : list Bullet) :
  forall m,
    j ∈ bulletsToRemove (snd (forEach_bullet delta es bs m))
    <-> j ∈ bulletsToRemove m
        \/ exists b, In b bs /\ b_id b = j
                     /\ (out_of_bounds (advance delta b)
                         || existsb (overlaps (advance delta b)) es = true).
Proof.
  induction bs as [|b bs IH]; intros m; simpl.
  - split; [tauto|]. intros [H|(b & [] & _)]. exact H.
  - rewrite IH, collide_removes.
    destruct (out_of_bounds (advance delta b)) eqn:Hoob; simpl.
    + rewrite elem_of_union, elem_of_singleton. split.
      * intros [[[H|H]|[H1 H2]]|(b' & Hin & Hid & Hb')]; eauto 8.
        -- right. exists b. rewrite Hoob. auto.
        -- right. exists b. rewrite Hoob. auto.
      * intros [H|(b' & [<-|Hin] & Hid & Hb')]; eauto 8.
    + split.
      * intros [[H|[H1 H2]]|(b' & Hin & Hid & Hb')]; eauto 8.
        right. exists b. rewrite Hoob. auto.
      * intros [H|(b' & [<-|Hin] & Hid & Hb')]; eauto 8.
        rewrite Hoob in Hb'. simpl in Hb'. auto.
Qed.

Lemma filter_none {A : Type} (f : A -> bool) (l : list A) :
  (forall a, In a l -> f a = false) -> List.filter f l = [].
Proof.
  induction l as [|a l IH]; simpl; intros Hall; [reflexivity|].
  rewrite (Hall a) by now left.
  apply IH. intros b Hb. apply Hall. now right.
Qed.

Lemma hit_count_unique (b : Bullet) (e : Enemy) (es : list Enemy) :
  NoDup (List.map e_id es) -> In e es ->
  hit_count b (e_id e) es = if overlaps b e then 1%nat else 0%nat.
Proof.
  unfold hit_count.
  induction es as [|a es IH]; simpl; intros Hnd Hin; [contradiction|].
  apply NoDup_cons in Hnd as [Hnotin Hnd].
  destruct Hin as [->|Hin].
  - rewrite Z.eqb_refl. simpl.
    assert (Hrest : List.filter (fun e0 => (e_id e0 =? e_id e) && overlaps b e0) es = []).
    { apply filter_none. intros x Hx.
      destruct (Z.eqb_spec (e_id x) (e_id e)) as [Heq|]; [|reflexivity].
      exfalso. apply Hnotin. rewrite <- Heq.
      apply list_elem_of_In. now apply in_map. }
    destruct (overlaps b e); simpl; now rewrite Hrest.
  - destruct (Z.eqb_spec (e_id a) (e_id e)) as [Heq|]; simpl.
    + exfalso. apply Hnotin. rewrite Heq.
      apply list_elem_of_In. now apply in_map.
    + now apply IH.
Qed.

Lemma total_hits_unique (delta : float) (e : Enemy) (es : list Enemy) (bs : list Bullet) :
  NoDup (List.map e_id es) -> In e es ->
  total_hits delta (e_id e) es bs = length (overlapping delta e bs).
Proof.
  intros Hnd Hin. unfold overlapping.
  induction bs as [|b bs IH]; simpl; [reflexivity|].
  rewrite IH, (hit_count_unique _ _ _ Hnd Hin).
  now destruct (overlaps (advance delta b) e).
Qed.

(** ** The enemy loop *)

Lemma apply_damage_hp (dmg : gmap Z Z) (e : Enemy) :
  e_hp (apply_damage dmg e) = jsnum_sub (e_hp e) (default 0 (dmg !! e_id e)).
Proof.
  unfold apply_damage. destruct (dmg !! e_id e); simpl; [reflexivity|].
  destruct (e_hp e); simpl; [f_equal; lia | reflexivity].
Qed.

Lemma apply_damage_id (dmg : gmap Z Z) (e : Enemy) :
  e_id (apply_damage dmg e) = e_id e.
Proof. unfold apply_damage. now destruct (dmg !! e_id e). Qed.

Lemma fst_forEach_enemy (delta : float) (dmg : gmap Z Z) (es : list Enemy) :
  forall t, fst (forEach_enemy delta dmg es t) = List.map (update_enemy delta dmg) es.
Proof.
  induction es as [|e es IH]; intros t; simpl; [reflexivity|].
  rewrite IH. f_equal.
  unfold update_enemy, enemy_callback. now destruct (outcome (apply_damage dmg e)).
Qed.

Lemma update_enemy_id (delta : float) (dmg : gmap Z Z) (e : Enemy) :
  e_id (update_enemy delta dmg e) = e_id e.
Proof.
  unfold update_enemy.
  destruct (outcome (apply_damage dmg e)); simpl; apply apply_damage_id.
Qed.

Lemma forEach_enemy_removes (delta : float) (dmg : gmap Z Z) (j : Z) (es : list Enemy) :
  forall t,
    j ∈ enemiesToRemove (snd (forEach_enemy delta dmg es t))
    <-> j ∈ enemiesToRemove t
        \/ exists e, In e es /\ e_id e = j /\ resolved dmg e = true.
Proof.
  induction es as [|e es IH]; intros t; simpl.
  - split; [tauto|]. intros [H|(e & [] & _)]. exact H.
  - rewrite IH. unfold enemy_callback, resolved.
    destruct (outcome (apply_damage dmg e)) eqn:Hout; simpl;
      rewrite ?elem_of_union, ?elem_of_singleton, ?apply_damage_id.
    + split.
      * intros [[H|H]|(e' & Hin & Hid & Hres)]; eauto 8.
        right. exists e. rewrite Hout. auto.
      * intros [H|(e' & [<-|Hin] & Hid & Hres)]; eauto 8.
    + split.
      * intros [[H|H]|(e' & Hin & Hid & Hres)]; eauto 8.
        right. exists e. rewrite Hout. auto.
      * intros [H|(e' & [<-|Hin] & Hid & Hres)]; eauto 8.
    + split.
      * intros [H|(e' & Hin & Hid & Hres)]; eauto 8.
      * intros [H|(e' & [<-|Hin] & Hid & Hres)]; eauto 8.
        rewrite Hout in Hres. discriminate.
Qed.

Lemma forEach_enemy_coreHp (delta : float) (dmg : gmap Z Z) (es : list Enemy) :
  forall t,
    newCoreHp (snd (forEach_enemy delta dmg es t))
    = newCoreHp t - 10 * Z.of_nat (length (List.filter (reaches_core dmg) es)).
Proof.
  induction es as [|e es IH]; intros t; simpl; [lia|].
  rewrite IH. unfold enemy_callback, reaches_core.
  destruct (outcome (apply_damage dmg e)); simpl; lia.
Qed.

(** ** Commit *)

Lemma enemies_commit (p : Pass) (s : State) :
  enemies (commit p s) = keep_enemies (enemiesToRemove (toll p)) (updatedEnemies p).
Proof. unfold commit. now destruct (newCoreHp (toll p) =? coreHp s). Qed.

Lemma bullets_commit (p : Pass) (s : State) :
  bullets (commit p s) = keep_bullets (bulletsToRemove (marks p)) (updatedBullets p).
Proof. unfold commit. now destruct (newCoreHp (toll p) =? coreHp s). Qed.

Lemma coreHp_commit (p : Pass) (s : State) :
  coreHp (commit p s) = newCoreHp (toll p).
Proof.
  unfold commit. destruct (Z.eqb_spec (newCoreHp (toll p)) (coreHp s)); simpl; congruence.
Qed.

Lemma gameState_commit (p : Pass) (s : State) : gameState (commit p s) = gameState s.
Proof. unfold commit. now destruct (newCoreHp (toll p) =? coreHp s). Qed.

Lemma waves_commit (p : Pass) (s : State) : waves (commit p s) = waves s.
Proof. unfold commit. now destruct (newCoreHp (toll p) =? coreHp s). Qed.

Lemma currentWave_commit (p : Pass) (s : State) : currentWave (commit p s) = currentWave s.
Proof. unfold commit. now destruct (newCoreHp (toll p) =? coreHp s). Qed.

Lemma keep_bullets_spec (rm : gset Z) (bs : list Bullet) (b : Bullet) :
  In b (keep_bullets rm bs) <-> In b bs /\ b_id b ∉ rm.
Proof.
  unfold keep_bullets. rewrite List.filter_In, negb_true_iff, bool_decide_eq_false.
  reflexivity.
Qed.

Lemma keep_enemies_spec (rm : gset Z) (es : list Enemy) (e : Enemy) :
  In e (keep_enemies rm es) <-> In e es /\ e_id e ∉ rm.
Proof.
  unfold keep_enemies. rewrite List.filter_In, negb_true_iff, bool_decide_eq_false.
  reflexivity.
Qed.

Lemma simulate_damage (timeDiff : float) (s : State) (e : Enemy) :
  NoDup (List.map e_id (enemies s)) -> In e (enemies s) ->
  default 0 (enemiesToDamage (marks (simulate timeDiff s)) !! e_id e)
  = 10 * Z.of_nat (length (overlapping (timeDiff / 1000) e (bullets s))).
Proof.
  intros Hnd Hin. unfold simulate. simpl.
  rewrite forEach_bullet_damage, total_hits_unique by assumption.
  simpl. rewrite lookup_empty. simpl. lia.
Qed.

Lemma simulate_coreHp (timeDiff : float) (s : State) :
  newCoreHp (toll (simulate timeDiff s))
  = coreHp s
    - 10 * Z.of_nat (length (List.filter
                               (reaches_core (enemiesToDamage (marks (simulate timeDiff s))))
                               (enemies s))).
Proof. unfold simulate. simpl. now rewrite forEach_enemy_coreHp. Qed.

Lemma simulate_enemiesToRemove (timeDiff : float) (s : State) (j : Z) :
  j ∈ enemiesToRemove (toll (simulate timeDiff s))
  <-> exists e, In e (enemies s) /\ e_id e = j
                /\ resolved (enemiesToDamage (marks (simulate timeDiff s))) e = true.
Proof.
  unfold simulate. simpl. rewrite forEach_enemy_removes. simpl.
  rewrite elem_of_empty. tauto.
Qed.

Lemma simulate_bulletsToRemove (timeDiff : float) (s : State) (j : Z) :
  j ∈ bulletsToRemove (marks (simulate timeDiff s))
  <-> exists b, In b (bullets s) /\ b_id b = j
                /\ (out_of_bounds (advance (timeDiff / 1000) b)
                    || existsb (overlaps (advance (timeDiff / 1000) b)) (enemies s) = true).
Proof.
  unfold simulate. simpl. rewrite forEach_bullet_removes. simpl.
  rewrite elem_of_empty. tauto.
Qed.

Lemma simulate_updatedBullets (timeDiff : float) (s : State) :
  updatedBullets (simulate timeDiff s) = List.map (advance (timeDiff / 1000)) (bullets s).
Proof. unfold simulate. simpl. apply fst_forEach_bullet. Qed.

Lemma simulate_updatedEnemies (timeDiff : float) (s : State) :
  updatedEnemies (simulate timeDiff s)
  = List.map (update_enemy (timeDiff / 1000) (enemiesToDamage (marks (simulate timeDiff s))))
             (enemies s).
Proof. unfold simulate. simpl. apply fst_forEach_enemy. Qed.

(** C1.  In one frame, an enemy (ids being unique among the live enemies)
    overlapped by [k] projectiles accumulates [10 * k] damage, so its hit
    points drop by [10 * k]; every such projectile is in the removal set,
    which holds each id once, and is gone after the commit, while the
    first statement, holding for every enemy, gives each enemy the full
    damage of every projectile over it; and when the enemy's hit points
    are then at most 0, the enemy leaves through the kill exit: it is
    removed by the commit and is not among the enemies that cost the core
    10 hit points each. *)
Theorem damage_accumulates (timeDiff : float) (s : State) (e : Enemy) :
  NoDup (List.map e_id (enemies s)) ->
  In e (enemies s) ->
  let delta := (timeDiff / 1000)%float in
  let p := simulate timeDiff s in
  let dmg := enemiesToDamage (marks p) in
  let k := Z.of_nat (length (overlapping delta e (bullets s))) in
  default 0 (dmg !! e_id e) = 10 * k
  /\ e_hp (apply_damage dmg e) = jsnum_sub (e_hp e) (10 * k)
  /\ NoDup (elements (bulletsToRemove (marks p)))
  /\ (forall b, In b (overlapping delta e (bullets s)) ->
        b_id b ∈ bulletsToRemove (marks p)
        /\ forall b', In b' (bullets (commit p s)) -> b_id b' <> b_id b)
  /\ newCoreHp (toll p)
      = coreHp s - 10 * Z.of_nat (length (List.filter (reaches_core dmg) (enemies s)))
  /\ (jsnum_le0 (jsnum_sub (e_hp e) (10 * k)) = true ->
        outcome (apply_damage dmg e) = Killed
        /\ reaches_core dmg e = false
        /\ e_id e ∈ enemiesToRemove (toll p)
        /\ forall e', In e' (enemies (commit p s)) -> e_id e' <> e_id e).
Proof.
  intros Hnd Hin delta p dmg k.
  assert (Hdmg : default 0 (dmg !! e_id e) = 10 * k)
    by (apply simulate_damage; assumption).
  assert (Hhp : e_hp (apply_damage dmg e) = jsnum_sub (e_hp e) (10 * k))
    by (rewrite apply_damage_hp, Hdmg; reflexivity).
  split; [exact Hdmg|]. split; [exact Hhp|].
  split; [apply NoDup_elements|].
  split; [|split; [apply simulate_coreHp|]].
  - intros b Hb. unfold overlapping in Hb. apply List.filter_In in Hb as [Hb Hov].
    assert (Hmark : b_id b ∈ bulletsToRemove (marks p)).
    { apply simulate_bulletsToRemove.
      exists b. repeat split; [assumption|].
      apply orb_true_iff. right. apply existsb_exists. eauto. }
    split; [exact Hmark|].
    intros b' Hb' Heq. rewrite bullets_commit in Hb'.
    apply keep_bullets_spec in Hb' as [_ Hnot]. apply Hnot. now rewrite Heq.
  - intros Hle.
    assert (Hout : outcome (apply_damage dmg e) = Killed).
    { unfold outcome. rewrite Hhp, Hle. reflexivity. }
    assert (Hrm : e_id e ∈ enemiesToRemove (toll p)).
    { apply simulate_enemiesToRemove.
      exists e. repeat split; [assumption|].
      unfold resolved. fold p. fold dmg. now rewrite Hout. }
    split; [exact Hout|]. split; [unfold reaches_core; now rewrite Hout|].
    split; [exact Hrm|].
    intros e' He' Heq. rewrite enemies_commit in He'.
    apply keep_enemies_spec in He' as [_ Hnot]. apply Hnot. now rewrite Heq.
Qed.

(** ** Division by the distance to the core *)

Lemma apply_damage_distToCore (dmg : gmap Z Z) (e : Enemy) :
  distToCore (apply_damage dmg e) = distToCore e.
Proof. unfold apply_damage. now destruct (dmg !! e_id e). Qed.

Lemma apply_damage_radius (dmg : gmap Z Z) (e : Enemy) :
  e_radius (apply_damage dmg e) = e_radius e.
Proof. unfold apply_damage. now destruct (dmg !! e_id e). Qed.

Lemma outcome_zero_distance (e : Enemy) :
  (0 <? coreRadius + e_radius e)%float = true ->
  is_zero (distToCore e) = true ->
  outcome e = if jsnum_le0 (e_hp e) then Killed else ReachedCore.
Proof.
  intros Hrad Hzero. unfold outcome.
  now rewrite (is_zero_ltb _ _ Hzero), Hrad.
Qed.

Lemma outcome_Moves (e : Enemy) (d : float) :
  outcome e = Moves d ->
  d = distToCore e /\ (distToCore e <? coreRadius + e_radius e)%float = false.
Proof.
  unfold outcome. destruct (jsnum_le0 (e_hp e)); [discriminate|].
  destruct (distToCore e <? coreRadius + e_radius e)%float; [discriminate|].
  intros [= <-]. auto.
Qed.

(** ** The game state *)

Lemma playing_dec (s : State) :
  {gameState s = playing} + {gameState s <> playing}.
Proof. destruct (gameState s); auto; right; discriminate. Qed.

Lemma frame_terminal (now : Z) (random : nat -> float) (timeDiff : float) (s : State) :
  gameState s <> playing -> frame now random timeDiff s = s.
Proof. unfold frame. destruct (gameState s); simpl; congruence. Qed.

Lemma fireTick_terminal (now : Z) (s : State) :
  gameState s <> playing -> fireTick now s = s.
Proof. unfold fireTick. destruct (gameState s); simpl; congruence. Qed.

Lemma frame_playing (now : Z) (random : nat -> float) (timeDiff : float) (s : State) :
  gameState s = playing ->
  frame now random timeDiff s
  = match verdict (simulate timeDiff s) s with
    | GameOver => setGameState gameover (commit (simulate timeDiff s) s)
    | NextWave n => spawnWave now random n (commit (simulate timeDiff s) s)
    | Continue => commit (simulate timeDiff s) s
    end.
Proof. unfold frame. now intros ->. Qed.

Lemma rerun_bootstrap_same (now : Z) (random : nat -> float) (s : State) :
  rerun_bootstrap now random s s = s.
Proof. unfold rerun_bootstrap. now rewrite Z.eqb_refl. Qed.

Lemma step_terminal (s s' : State) :
  gameState s <> playing -> step s s' -> s' = s.
Proof.
  intros Hterm Hstep. destruct Hstep.
  - now contradiction Hterm.
  - now apply fireTick_terminal.
  - rewrite frame_terminal by assumption. apply rerun_bootstrap_same.
Qed.

Lemma steps_terminal (s s' : State) :
  gameState s <> playing -> rtc step s s' -> s' = s.
Proof.
  intros Hterm Hsteps. induction Hsteps as [|x y z Hxy _ IH]; [reflexivity|].
  apply step_terminal in Hxy; [|assumption]. subst y. now apply IH.
Qed.

Lemma frame_initial (now : Z) (random : nat -> float) (timeDiff : float) :
  frame now random timeDiff initial = initial.
Proof. reflexivity. Qed.

Lemma fireTick_initial (now : Z) : fireTick now initial = initial.
Proof. reflexivity. Qed.

(** C3.  A step changes the game state only from [playing], to [gameover]
    or to [victory]; from a state that is not [playing] no step leads
    anywhere else, and there the frame callback and the fire tick are the
    identity, so they leave the enemy and projectile sets as they are. *)
Theorem game_state_transitions (s s' : State) :
  step s s' ->
  (gameState s' <> gameState s ->
     gameState s = playing /\ (gameState s' = gameover \/ gameState s' = victory))
  /\ (gameState s <> playing ->
       s' = s
       /\ (forall t, rtc step s t -> t = s)
       /\ (forall now random timeDiff,
             enemies (frame now random timeDiff s) = enemies s
             /\ bullets (frame now random timeDiff s) = bullets s)
       /\ (forall now,
             enemies (fireTick now s) = enemies s
             /\ bullets (fireTick now s) = bullets s)).
Proof.
  intros Hstep. split.
  - intros Hchange. destruct (playing_dec s) as [Hp|Hterm].
    + split; [exact Hp|]. rewrite Hp in Hchange.
      destruct (gameState s'); auto. congruence.
    + apply step_terminal in Hstep; [|assumption]. congruence.
  - intros Hterm. split; [now apply step_terminal|].
    split; [intros t; now apply steps_terminal|].
    split.
    + intros now random timeDiff. now rewrite frame_terminal.
    + intros now. now rewrite fireTick_terminal.
Qed.

(** ** The wave director *)

Lemma find_wave_None (ws : list WaveData) (n : Z) :
  (forall w, In w ws -> wd_wave w <> n) -> find_wave ws n = None.
Proof.
  intros Hnone. unfold find_wave.
  destruct (List.find (fun w => wd_wave w =? n) ws) as [w|] eqn:Hfind; [|reflexivity].
  apply List.find_some in Hfind as [Hin Heq].
  apply Z.eqb_eq in Heq. now apply Hnone in Hin.
Qed.

Lemma requested_wave_terminal (timeDiff : float) (s : State) :
  gameState s <> playing -> requested_wave timeDiff s = None.
Proof. unfold requested_wave. destruct (gameState s); simpl; congruence. Qed.

(** C4.  When the catalog has no record whose wave number is [n],
    [spawnWave n] only sets the game state to [victory]: nothing is
    spawned, the enemy set and the current wave number are as before.
    From the state it leaves, every sequence of steps stays in that very
    state, and no frame asks the wave director for a wave. *)
Theorem spawnWave_unknown_wave (now : Z) (random : nat -> float) (n : Z) (s : State) :
  (forall w, In w (waves s) -> wd_wave w <> n) ->
  let s' := spawnWave now random n s in
  s' = setGameState victory s
  /\ gameState s' = victory
  /\ enemies s' = enemies s
  /\ currentWave s' = currentWave s
  /\ (forall t, rtc step s' t ->
        t = s' /\ forall timeDiff, requested_wave timeDiff t = None).
Proof.
  intros Hnone s'.
  assert (Hs' : s' = setGameState victory s)
    by (unfold s', spawnWave; now rewrite find_wave_None).
  split; [exact Hs'|]. rewrite Hs'. repeat split.
  - apply steps_terminal in H; [assumption|]. simpl. discriminate.
  - intros timeDiff. apply steps_terminal in H; [|simpl; discriminate].
    subst t. apply requested_wave_terminal. simpl. discriminate.
Qed.

Lemma spawnWave_cases (now : Z) (random : nat -> float) (n : Z) (s : State) :
  spawnWave now random n s = setGameState victory s
  \/ exists w, find_wave (waves s) n = Some w
               /\ spawnWave now random n s
                  = setCurrentWave n (setEnemies (spawnGroups now random (wd_enemies w) 0) s).
Proof. unfold spawnWave. destruct (find_wave (waves s) n); eauto. Qed.

Lemma coreHp_spawnWave (now : Z) (random : nat -> float) (n : Z) (s : State) :
  coreHp (spawnWave now random n s) = coreHp s.
Proof. unfold spawnWave. now destruct (find_wave (waves s) n). Qed.

Lemma bullets_spawnWave (now : Z) (random : nat -> float) (n : Z) (s : State) :
  bullets (spawnWave now random n s) = bullets s.
Proof. unfold spawnWave. now destruct (find_wave (waves s) n). Qed.

Lemma currentWave_spawnWave (now : Z) (random : nat -> float) (n : Z) (s : State) :
  currentWave (spawnWave now random n s) = currentWave s
  \/ currentWave (spawnWave now random n s) = n.
Proof. unfold spawnWave. destruct (find_wave (waves s) n); auto. Qed.

Lemma coreHp_bootstrap (now : Z) (random : nat -> float) (s : State) :
  coreHp (bootstrap now random s) = coreHp s.
Proof.
  unfold bootstrap. destruct (_ && _); [apply coreHp_spawnWave | reflexivity].
Qed.

Lemma coreHp_rerun_bootstrap (now : Z) (random : nat -> float) (s t : State) :
  coreHp (rerun_bootstrap now random s t) = coreHp t.
Proof.
  unfold rerun_bootstrap. destruct (_ =? _); [reflexivity | apply coreHp_bootstrap].
Qed.

Lemma coreHp_fireTick (now : Z) (s : State) : coreHp (fireTick now s) = coreHp s.
Proof.
  unfold fireTick. destruct (negb _); [reflexivity|].
  destruct (enemies s); [reflexivity|]. now destruct (nearestEnemy _).
Qed.

Lemma coreHp_frame (now : Z) (random : nat -> float) (timeDiff : float) (s : State) :
  gameState s = playing ->
  coreHp (frame now random timeDiff s) = newCoreHp (toll (simulate timeDiff s)).
Proof.
  intros Hp. rewrite (frame_playing _ _ _ _ Hp).
  destruct (verdict _ s); simpl; rewrite ?coreHp_spawnWave; apply coreHp_commit.
Qed.

Lemma coreHp_frame_le (now : Z) (random : nat -> float) (timeDiff : float) (s : State) :
  coreHp (frame now random timeDiff s) <= coreHp s.
Proof.
  destruct (playing_dec s) as [Hp|Hterm].
  - rewrite (coreHp_frame _ _ _ _ Hp), simulate_coreHp. lia.
  - rewrite frame_terminal by assumption. lia.
Qed.

Lemma coreHp_step (s s' : State) : step s s' -> coreHp s' <= coreHp s.
Proof.
  intros Hstep. destruct Hstep.
  - rewrite coreHp_bootstrap. simpl. lia.
  - rewrite coreHp_fireTick. lia.
  - rewrite coreHp_rerun_bootstrap. apply coreHp_frame_le.
Qed.

Lemma coreHp_steps (s t : State) : rtc step s t -> coreHp t <= coreHp s.
Proof.
  intros Hsteps. induction Hsteps as [|x y z Hxy _ IH]; [lia|].
  apply coreHp_step in Hxy. lia.
Qed.

(** C5.  No step increases the core's hit points, over any number of
    steps; a frame takes 10 of them for each enemy that leaves through the
    core-collision exit and changes them in no other way.  When a frame
    brings them to 0 or below, the game state becomes [gameover], whatever
    else holds: no wave is asked for, the current wave number stays, and
    the enemy set is the committed one, even if that is empty. *)
Theorem core_hit_points (now : Z) (random : nat -> float) (timeDiff : float) (s : State) :
  gameState s = playing ->
  let p := simulate timeDiff s in
  let dmg := enemiesToDamage (marks p) in
  (forall t, rtc step s t -> coreHp t <= coreHp s)
  /\ coreHp (frame now random timeDiff s)
      = coreHp s - 10 * Z.of_nat (length (List.filter (reaches_core dmg) (enemies s)))
  /\ (coreHp (frame now random timeDiff s) <= 0 ->
        gameState (frame now random timeDiff s) = gameover
        /\ requested_wave timeDiff s = None
        /\ currentWave (frame now random timeDiff s) = currentWave s
        /\ enemies (frame now random timeDiff s)
            = keep_enemies (enemiesToRemove (toll p)) (updatedEnemies p)).
Proof.
  intros Hp p dmg. split; [|split].
  - intros t. apply coreHp_steps.
  - rewrite (coreHp_frame _ _ _ _ Hp). apply simulate_coreHp.
  - rewrite (coreHp_frame _ _ _ _ Hp). fold p. intros Hdead.
    assert (Hv : verdict p s = GameOver).
    { unfold verdict. apply Z.leb_le in Hdead. now rewrite Hdead. }
    rewrite (frame_playing _ _ _ _ Hp). fold p. rewrite Hv.
    unfold requested_wave. rewrite Hp. simpl negb. cbv iota. fold p. rewrite Hv.
    simpl. rewrite currentWave_commit, enemies_commit. auto.
Qed.

(** ** Projectiles that leave the viewport *)

Lemma bullets_frame (now : Z) (random : nat -> float) (timeDiff : float) (s : State) :
  gameState s = playing ->
  bullets (frame now random timeDiff s)
  = keep_bullets (bulletsToRemove (marks (simulate timeDiff s)))
                 (List.map (advance (timeDiff / 1000)) (bullets s)).
Proof.
  intros Hp. rewrite (frame_playing _ _ _ _ Hp), <- simulate_updatedBullets.
  destruct (verdict _ s); simpl; rewrite ?bullets_spawnWave; apply bullets_commit.
Qed.

(** C8.  In a frame (the state being [playing], or no frame runs), a
    projectile whose advanced position is outside the viewport is not in
    the projectile set that the frame commits: neither the advanced
    projectile nor any projectile with its id. *)
Theorem out_of_bounds_removed
  (now : Z) (random : nat -> float) (timeDiff : float) (s : State) (b : Bullet) :
  gameState s = playing ->
  In b (bullets s) ->
  out_of_bounds (advance (timeDiff / 1000) b) = true ->
  ~ In (advance (timeDiff / 1000) b) (bullets (frame now random timeDiff s))
  /\ forall b', In b' (bullets (frame now random timeDiff s)) -> b_id b' <> b_id b.
Proof.
  intros Hp Hin Hoob.
  assert (Hmark : b_id b ∈ bulletsToRemove (marks (simulate timeDiff s))).
  { apply simulate_bulletsToRemove. exists b. rewrite Hoob. auto. }
  rewrite (bullets_frame _ _ _ _ Hp). split.
  - intros Hb. apply keep_bullets_spec in Hb as [_ Hnot]. now apply Hnot.
  - intros b' Hb' Heq. apply keep_bullets_spec in Hb' as [_ Hnot].
    apply Hnot. now rewrite Heq.
Qed.

(** ** Wave numbers *)

Lemma requested_wave_next (timeDiff : float) (s : State) (n : Z) :
  requested_wave timeDiff s = Some n -> n = currentWave s + 1.
Proof.
  unfold requested_wave, verdict. destruct (negb _); [discriminate|].
  destruct (_ <=? 0); [discriminate|].
  destruct (_ && _); [|discriminate]. now intros [= <-].
Qed.

Lemma currentWave_frame (now : Z) (random : nat -> float) (timeDiff : float) (s : State) :
  currentWave (frame now random timeDiff s) = currentWave s
  \/ currentWave (frame now random timeDiff s) = currentWave s + 1.
Proof.
  destruct (playing_dec s) as [Hp|Hterm].
  - rewrite (frame_playing _ _ _ _ Hp). unfold verdict.
    destruct (_ <=? 0); [left; simpl; apply currentWave_commit|].
    destruct (_ && _); [|left; apply currentWave_commit].
    destruct (currentWave_spawnWave now random (currentWave s + 1)
                (commit (simulate timeDiff s) s)) as [H|H]; rewrite H; auto.
    left. apply currentWave_commit.
  - rewrite frame_terminal by assumption. auto.
Qed.

Lemma currentWave_fireTick (now : Z) (s : State) :
  currentWave (fireTick now s) = currentWave s.
Proof.
  unfold fireTick. destruct (negb _); [reflexivity|].
  destruct (enemies s); [reflexivity|]. now destruct (nearestEnemy _).
Qed.

Lemma bootstrap_idle (now : Z) (random : nat -> float) (s : State) :
  currentWave s <> 0 -> bootstrap now random s = s.
Proof.
  intros Hne. unfold bootstrap. apply Z.eqb_neq in Hne. rewrite Hne.
  now rewrite andb_false_r.
Qed.

Lemma currentWave_step (s s' : State) :
  0 <= currentWave s -> step s s' ->
  currentWave s' = currentWave s \/ currentWave s' = currentWave s + 1.
Proof.
  intros Hnn Hstep. destruct Hstep.
  - unfold bootstrap. destruct (_ && _); [|auto].
    destruct (currentWave_spawnWave now random 1 (setWaves data initial)) as [H|H];
      rewrite H; auto.
  - left. apply currentWave_fireTick.
  - unfold rerun_bootstrap.
    destruct (Z.eqb_spec (currentWave s) (currentWave (frame now random timeDiff s)))
      as [Heq|Hne]; [auto|].
    destruct (currentWave_frame now random timeDiff s) as [H|H]; [congruence|].
    rewrite bootstrap_idle by lia. auto.
Qed.

Lemma reachable_currentWave (s : State) : reachable s -> 0 <= currentWave s.
Proof.
  intros Hreach. induction Hreach as [|s s' _ IH Hstep]; [simpl; lia|].
  destruct (currentWave_step s s' IH Hstep); lia.
Qed.

(** C9.  In a frame of a [playing] state whose core survives, when the
    enemy set after removal is empty and the catalog is loaded
    ([waves.length > 0]), the frame asks the wave director for wave
    [currentWave + 1] and is the result of [spawnWave (currentWave + 1)];
    no frame ever asks for any other wave number; and along every step
    of a reachable state the current wave number stays or grows by
    exactly 1. *)
Theorem wave_number_advances
  (now : Z) (random : nat -> float) (timeDiff : float) (s : State) :
  gameState s = playing ->
  let p := simulate timeDiff s in
  (keep_enemies (enemiesToRemove (toll p)) (updatedEnemies p) = [] ->
   waves s <> [] ->
   0 < newCoreHp (toll p) ->
   requested_wave timeDiff s = Some (currentWave s + 1)
   /\ frame now random timeDiff s
      = spawnWave now random (currentWave s + 1) (commit p s)
   /\ forall w, find_wave (waves s) (currentWave s + 1) = Some w ->
                currentWave (frame now random timeDiff s) = currentWave s + 1
                /\ enemies (frame now random timeDiff s)
                   = spawnGroups now random (wd_enemies w) 0)
  /\ (forall n, requested_wave timeDiff s = Some n -> n = currentWave s + 1)
  /\ (currentWave (frame now random timeDiff s) = currentWave s
      \/ currentWave (frame now random timeDiff s) = currentWave s + 1)
  /\ (reachable s -> forall s', step s s' ->
        currentWave s' = currentWave s \/ currentWave s' = currentWave s + 1).
Proof.
  intros Hp p. split; [|split; [|split]].
  - intros Hempty Hloaded Halive.
    assert (Hv : verdict p s = NextWave (currentWave s + 1)).
    { unfold verdict. rewrite Hempty.
      apply Z.leb_gt in Halive. rewrite Halive.
      destruct (waves s); [congruence|reflexivity]. }
    assert (Hf : frame now random timeDiff s
                 = spawnWave now random (currentWave s + 1) (commit p s)).
    { rewrite (frame_playing _ _ _ _ Hp). fold p. now rewrite Hv. }
    split; [|split; [exact Hf|]].
    + unfold requested_wave. rewrite Hp. simpl negb. cbv iota. fold p. now rewrite Hv.
    + intros w Hw. rewrite Hf. unfold spawnWave.
      rewrite waves_commit, Hw. auto.
  - apply requested_wave_next.
  - apply currentWave_frame.
  - intros Hreach s' Hstep. apply currentWave_step; [|assumption].
    now apply reachable_currentWave.
Qed.

(** ** The fire controller *)

Lemma Nearest_nearer (seen : list Enemy) (acc : option Enemy * float) (e : Enemy) :
  Nearest seen acc -> Nearest (seen ++ [e]) (nearer acc e).
Proof.
  intros [Hmin Hacc]. unfold nearer.
  destruct (distToCore e <? snd acc)%float eqn:Hlt; unfold Nearest; cbn [fst snd].
  - split.
    + intros x Hx. apply in_app_or in Hx as [Hx|[<-|[]]]; [|apply ltb_irrefl].
      destruct (distToCore x <? distToCore e)%float eqn:Hxe; [|reflexivity].
      rewrite <- (Hmin x Hx). symmetry. now apply ltb_trans with (distToCore e).
    + split; [reflexivity|]. exists seen, []. split; [reflexivity|].
      intros x Hx.
      destruct (distToCore x <=? distToCore e)%float eqn:Hxe; [|reflexivity].
      rewrite <- (Hmin x Hx). symmetry. now apply leb_ltb_trans with (distToCore e).
  - split.
    + intros x Hx. apply in_app_or in Hx as [Hx|[<-|[]]]; auto.
    + destruct (fst acc) as [t|]; [|exact Hacc].
      destruct Hacc as (Hd & pre & post & Hsplit & Hfirst).
      split; [exact Hd|]. exists pre, (post ++ [e]). split; [|exact Hfirst].
      rewrite Hsplit, <- app_assoc. reflexivity.
Qed.

Lemma Nearest_fold (es : list Enemy) :
  forall seen acc,
    Nearest seen acc -> Nearest (seen ++ es) (fold_left nearer es acc).
Proof.
  induction es as [|e es IH]; intros seen acc Hacc; simpl.
  - now rewrite app_nil_r.
  - replace (seen ++ e :: es) with ((seen ++ [e]) ++ es)
      by (rewrite <- app_assoc; reflexivity).
    apply IH. now apply Nearest_nearer.
Qed.

Lemma Nearest_nearestEnemy (es : list Enemy) :
  Nearest es (fold_left nearer es (None, infinity)).
Proof.
  apply (Nearest_fold es [] (None, infinity)). split; [intros x []|reflexivity].
Qed.

Lemma enemies_fireTick (now : Z) (s : State) : enemies (fireTick now s) = enemies s.
Proof.
  unfold fireTick. destruct (negb _); [reflexivity|].
  destruct (enemies s) eqn:Hes; [now rewrite Hes|].
  destruct (nearestEnemy _); simpl; now rewrite Hes.
Qed.

Lemma nearer_out_of_reach (es : list Enemy) :
  (forall e, In e es -> (distToCore e <? infinity)%float = false) ->
  fold_left nearer es (None, infinity) = (None, infinity).
Proof.
  induction es as [|e es IH]; simpl; [reflexivity|].
  intros Hfar. unfold nearer at 2. cbn [snd].
  rewrite (Hfar e) by now left. apply IH. intros x Hx. apply Hfar. now right.
Qed.

(** The loop only ever lowers [minDistance]. *)
Lemma nearer_fold_lowers (es : list Enemy) :
  forall acc,
    fold_left nearer es acc = acc
    \/ (snd (fold_left nearer es acc) <? snd acc)%float = true.
Proof.
  induction es as [|e es IH]; intros acc; simpl; [now left|].
  unfold nearer at 2 4.
  destruct (distToCore e <? snd acc)%float eqn:Hlt; [|apply IH].
  right. destruct (IH (Some e, distToCore e)) as [->|Hlower]; [exact Hlt|].
  cbn [snd] in Hlower. now apply ltb_trans with (distToCore e).
Qed.


(** ** Spawning a wave *)

Lemma stat_profile_agrees (kind : string) :
  inherited_key kind = false -> ENEMY_STATS_or_normal kind = stat_profile kind.
Proof.
  intros Hown. unfold ENEMY_STATS_or_normal, stat_profile. rewrite Hown.
  destruct (String.eqb_spec kind "normal"%string) as [->|]; reflexivity.
Qed.

Lemma length_spawnGroup (now : Z) (random : nat -> float) (ty : string) (n : nat) :
  forall j, length (spawnGroup now random ty n j) = n.
Proof. induction n as [|n IH]; intros j; simpl; [reflexivity|]. now rewrite IH. Qed.

Lemma length_spawnGroups (now : Z) (random : nat -> float) (groups : list EnemyData) :
  Forall (fun g => 0 <= ed_count g) groups ->
  forall j, Z.of_nat (length (spawnGroups now random groups j)) = sum_counts groups.
Proof.
  induction 1 as [|g groups Hg _ IH]; intros j; simpl; [reflexivity|].
  rewrite length_app, length_spawnGroup, Nat2Z.inj_add, IH. lia.
Qed.

Lemma ids_spawnGroup (now : Z) (random : nat -> float) (ty : string) (n : nat) :
  forall j,
    List.map e_id (spawnGroup now random ty n j)
    = List.map (fun i => now + Z.of_nat i) (List.seq j n).
Proof. induction n as [|n IH]; intros j; simpl; [reflexivity|]. now rewrite IH. Qed.

Lemma ids_spawnGroups (now : Z) (random : nat -> float) (groups : list EnemyData) :
  forall j,
    List.map e_id (spawnGroups now random groups j)
    = List.map (fun i => now + Z.of_nat i)
               (List.seq j (length (spawnGroups now random groups j))).
Proof.
  induction groups as [|g groups IH]; intros j; simpl; [reflexivity|].
  rewrite List.map_app, length_app, List.seq_app, List.map_app, length_spawnGroup.
  now rewrite ids_spawnGroup, IH.
Qed.

Lemma NoDup_ids_spawnGroups (now : Z) (random : nat -> float) (groups : list EnemyData) (j : nat) :
  NoDup (List.map e_id (spawnGroups now random groups j)).
Proof.
  rewrite ids_spawnGroups. apply NoDup_fmap_2; [|apply NoDup_seq].
  intros a b Hab. lia.
Qed.

Lemma kinds_spawnGroup (now : Z) (random : nat -> float) (ty : string) (n : nat) :
  forall j,
    List.map (fun e => (e_type e, e_hp e, e_radius e)) (spawnGroup now random ty n j)
    = repeat (ty, st_hp (ENEMY_STATS_or_normal ty), st_radius (ENEMY_STATS_or_normal ty)) n.
Proof. induction n as [|n IH]; intros j; simpl; [reflexivity|]. now rewrite IH. Qed.

Lemma kinds_spawnGroups (now : Z) (random : nat -> float) (groups : list EnemyData) :
  forall j,
    List.map (fun e => (e_type e, e_hp e, e_radius e)) (spawnGroups now random groups j)
    = List.flat_map
        (fun g => repeat (ed_type g,
                          st_hp (ENEMY_STATS_or_normal (ed_type g)),
                          st_radius (ENEMY_STATS_or_normal (ed_type g)))
                         (Z.to_nat (ed_count g)))
        groups.
Proof.
  induction groups as [|g groups IH]; intros j; simpl; [reflexivity|].
  now rewrite List.map_app, kinds_spawnGroup, IH.
Qed.

Lemma newEnemy_on_edge (now : Z) (random : nat -> float) (ty : string) (j : nat) :
  inherited_key ty = false -> on_edge (newEnemy now random ty j).
Proof.
  intros Hown. unfold on_edge, newEnemy, spawn_position. simpl e_type.
  rewrite (stat_profile_agrees _ Hown). simpl e_radius. split; [reflexivity|].
  destruct (floor_is _ 0 1); [simpl; auto|].
  destruct (floor_is _ 1 2); [simpl; auto|].
  destruct (floor_is _ 2 3); simpl; auto.
Qed.

Lemma In_spawnGroup (now : Z) (random : nat -> float) (ty : string) (n : nat) (e : Enemy) :
  forall j, In e (spawnGroup now random ty n j) ->
            exists i, e = newEnemy now random ty i.
Proof.
  induction n as [|n IH]; intros j; simpl; [contradiction|].
  intros [<-|Hin]; eauto.
Qed.

Lemma In_spawnGroups (now : Z) (random : nat -> float) (groups : list EnemyData) (e : Enemy) :
  forall j, In e (spawnGroups now random groups j) ->
            exists g i, In g groups /\ e = newEnemy now random (ed_type g) i.
Proof.
  induction groups as [|g groups IH]; intros j; simpl; [contradiction|].
  intros Hin. apply in_app_or in Hin as [Hin|Hin].
  - apply In_spawnGroup in Hin as [i ->]. eauto.
  - apply IH in Hin as (g' & i & Hg' & ->). eauto.
Qed.

Lemma on_edge_outside (e : Enemy) :
  (forall r, In r [10; 15; 25]%float ->
             (stageWidth <? stageWidth + r)%float = true
             /\ (stageHeight <? stageHeight + r)%float = true) ->
  on_edge e -> outside_viewport e = true.
Proof.
  intros Hview [_ Hedge]. unfold outside_viewport.
  assert (Hr : In (st_radius (stat_profile (e_type e))) [10; 15; 25]%float
               /\ (- st_radius (stat_profile (e_type e)) <? 0)%float = true).
  { unfold stat_profile.
    destruct (String.eqb _ _); [simpl; auto|].
    destruct (String.eqb _ _); simpl; auto. }
  destruct Hr as [Hr Hneg]. destruct (Hview _ Hr) as [HW HH].
  destruct Hedge as [-> | [-> | [-> | ->]]];
    rewrite ?Hneg, ?HW, ?HH, ?orb_true_r; reflexivity.
Qed.

(** X27.  When the catalog has wave [n], its counts are not negative and
    its kinds name no inherited property, [spawnWave n] sets the current
    wave to [n] and replaces the enemies by as many fresh ones as the
    counts add up to: group by group, each of the group's kind with the
    hit points and radius of its profile ([normal] for a kind the table
    lacks), each on one of the four lines that run outside the viewport at
    the distance of its radius, and so outside the viewport whenever adding
    a radius to the width or height gives a larger number; their ids are
    pairwise distinct. *)
Lemma spawnWave_known_wave
  (now : Z) (random : nat -> float) (n : Z) (s : State) (w : WaveData) :
  find_wave (waves s) n = Some w ->
  Forall (fun g => 0 <= ed_count g) (wd_enemies w) ->
  Forall (fun g => inherited_key (ed_type g) = false) (wd_enemies w) ->
  let s' := spawnWave now random n s in
  s' = setCurrentWave n (setEnemies (spawnGroups now random (wd_enemies w) 0) s)
  /\ currentWave s' = n
  /\ Z.of_nat (length (enemies s')) = sum_counts (wd_enemies w)
  /\ List.map (fun e => (e_type e, e_hp e, e_radius e)) (enemies s')
     = List.flat_map
         (fun g => repeat (ed_type g, st_hp (stat_profile (ed_type g)),
                           st_radius (stat_profile (ed_type g)))
                          (Z.to_nat (ed_count g)))
         (wd_enemies w)
  /\ (forall e, In e (enemies s') -> on_edge e)
  /\ ((forall r, In r [10; 15; 25]%float ->
                 (stageWidth <? stageWidth + r)%float = true
                 /\ (stageHeight <? stageHeight + r)%float = true) ->
      forall e, In e (enemies s') -> outside_viewport e = true)
  /\ NoDup (List.map e_id (enemies s')).
Proof.
  intros Hfind Hcount Hkinds s'.
  assert (Hs' : s' = setCurrentWave n (setEnemies (spawnGroups now random (wd_enemies w) 0) s))
    by (unfold s', spawnWave; now rewrite Hfind).
  split; [exact Hs'|]. rewrite Hs'. simpl.
  split; [reflexivity|]. split; [now apply length_spawnGroups|].
  assert (Hedge : forall e, In e (spawnGroups now random (wd_enemies w) 0) -> on_edge e).
  { intros e He. apply In_spawnGroups in He as (g & i & Hg & ->).
    apply newEnemy_on_edge.
    rewrite List.Forall_forall in Hkinds. now apply Hkinds. }
  split; [|split; [exact Hedge|split]].
  - rewrite kinds_spawnGroups. clear Hs' s' Hfind Hcount Hedge.
    induction Hkinds as [|g groups Hg _ IH]; simpl; [reflexivity|].
    now rewrite IH, (stat_profile_agrees _ Hg).
  - intros Hview e He. apply on_edge_outside; auto.
  - apply NoDup_ids_spawnGroups.
Qed.

(** ** Ids stay unique *)

Lemma NoDup_map_filter {A B : Type} (g : A -> B) (f : A -> bool) (l : list A) :
  NoDup (List.map g l) -> NoDup (List.map g (List.filter f l)).
Proof.
  induction l as [|a l IH]; simpl; intros Hnd; [constructor|].
  apply NoDup_cons in Hnd as [Hnotin Hnd].
  destruct (f a); simpl; [|now apply IH].
  apply NoDup_cons. split; [|now apply IH].
  intros Hin. apply Hnotin.
  apply list_elem_of_In in Hin. apply list_elem_of_In.
  apply List.in_map_iff in Hin as (x & Hx & Hin).
  apply List.filter_In in Hin as [Hin _].
  apply List.in_map_iff. eauto.
Qed.

Lemma NoDup_ids_spawnWave (now : Z) (random : nat -> float) (n : Z) (s : State) :
  NoDup (List.map e_id (enemies s)) ->
  NoDup (List.map e_id (enemies (spawnWave now random n s))).
Proof.
  intros Hnd. unfold spawnWave. destruct (find_wave (waves s) n); simpl; [|exact Hnd].
  apply NoDup_ids_spawnGroups.
Qed.

Lemma NoDup_ids_bootstrap (now : Z) (random : nat -> float) (s : State) :
  NoDup (List.map e_id (enemies s)) ->
  NoDup (List.map e_id (enemies (bootstrap now random s))).
Proof.
  intros Hnd. unfold bootstrap. destruct (_ && _); [|exact Hnd].
  now apply NoDup_ids_spawnWave.
Qed.

Lemma NoDup_ids_commit (timeDiff : float) (s : State) :
  NoDup (List.map e_id (enemies s)) ->
  NoDup (List.map e_id (enemies (commit (simulate timeDiff s) s))).
Proof.
  intros Hnd. rewrite enemies_commit, simulate_updatedEnemies.
  apply NoDup_map_filter. rewrite List.map_map.
  erewrite List.map_ext; [exact Hnd|]. intros e. apply update_enemy_id.
Qed.

Lemma NoDup_ids_frame (now : Z) (random : nat -> float) (timeDiff : float) (s : State) :
  NoDup (List.map e_id (enemies s)) ->
  NoDup (List.map e_id (enemies (frame now random timeDiff s))).
Proof.
  intros Hnd. destruct (playing_dec s) as [Hp|Hterm].
  - rewrite (frame_playing _ _ _ _ Hp).
    destruct (verdict _ s); simpl;
      [| apply NoDup_ids_spawnWave |]; now apply NoDup_ids_commit.
  - now rewrite frame_terminal.
Qed.

Lemma reachable_NoDup_ids (s : State) :
  reachable s -> NoDup (List.map e_id (enemies s)).
Proof.
  intros Hreach. induction Hreach as [|s s' _ IH Hstep]; [constructor|].
  destruct Hstep.
  - apply NoDup_ids_bootstrap. constructor.
  - now rewrite enemies_fireTick.
  - unfold rerun_bootstrap. destruct (_ =? _).
    + now apply NoDup_ids_frame.
    + apply NoDup_ids_bootstrap. now apply NoDup_ids_frame.
Qed.

(** ** No division by zero *)

Lemma distToCore_nan (e : Enemy) :
  is_nan (e_x e) || is_nan (e_y e) = true -> is_zero (distToCore e) = false.
Proof.
  intros Hnan. unfold is_zero, distToCore. apply is_nan_not_zero, is_nan_sqrt.
  unfold pow2. apply orb_true_iff in Hnan as [Hx|Hy].
  - now apply is_nan_add_l, is_nan_mul_l, is_nan_sub_l.
  - now apply is_nan_add_r, is_nan_mul_l, is_nan_sub_l.
Qed.

Lemma sound_radius (e : Enemy) :
  sound_enemy e = true -> is_zero (distToCore e) = true ->
  (0 <? coreRadius + e_radius e)%float = true.
Proof.
  unfold sound_enemy. rewrite <- orb_assoc. intros Hsound Hzero.
  apply orb_true_iff in Hsound as [Hrad|Hnan]; [exact Hrad|].
  apply distToCore_nan in Hnan. congruence.
Qed.

Lemma divisor_not_zero (e : Enemy) (d : float) :
  sound_enemy e = true -> outcome e = Moves d -> is_zero d = false.
Proof.
  intros Hsound Hout. apply outcome_Moves in Hout as [-> Hfar].
  destruct (is_zero (distToCore e)) eqn:Hzero; [|reflexivity].
  rewrite (is_zero_ltb _ _ Hzero), (sound_radius e Hsound Hzero) in Hfar.
  discriminate.
Qed.

Lemma sound_apply_damage (dmg : gmap Z Z) (e : Enemy) :
  sound_enemy (apply_damage dmg e) = sound_enemy e.
Proof. unfold apply_damage. now destruct (dmg !! e_id e). Qed.

Lemma sound_move (delta : float) (e : Enemy) (d : float) :
  sound_enemy e = true -> sound_enemy (move delta e d) = true.
Proof.
  unfold sound_enemy, move. simpl. rewrite <- !orb_assoc. intros Hsound.
  apply orb_true_iff in Hsound as [->|Hnan]; [reflexivity|].
  apply orb_true_iff in Hnan as [Hx|Hy].
  - rewrite (is_nan_add_l _ _ Hx). now rewrite orb_true_r.
  - rewrite (is_nan_add_l _ _ Hy). now rewrite !orb_true_r.
Qed.

Lemma sound_update_enemy (delta : float) (dmg : gmap Z Z) (e : Enemy) :
  sound_enemy e = true -> sound_enemy (update_enemy delta dmg e) = true.
Proof.
  intros Hsound. unfold update_enemy.
  destruct (outcome (apply_damage dmg e));
    [| | apply sound_move]; now rewrite sound_apply_damage.
Qed.

Lemma sound_newEnemy (now : Z) (random : nat -> float) (ty : string) (j : nat) :
  sound_enemy (newEnemy now random ty j) = true.
Proof.
  unfold newEnemy, ENEMY_STATS_or_normal.
  destruct (String.eqb ty "normal"); [reflexivity|].
  destruct (String.eqb ty "fast"); [reflexivity|].
  destruct (String.eqb ty "tank"); [reflexivity|].
  destruct (inherited_key ty); [|reflexivity].
  unfold sound_enemy, spawn_position. simpl st_radius.
  destruct (floor_is _ 0 1); [cbn [fst snd e_x e_y]; now rewrite !orb_true_r|].
  destruct (floor_is _ 1 2);
    [cbn [fst snd e_x e_y]; rewrite (is_nan_add_r stageWidth nan eq_refl);
     now rewrite !orb_true_r|].
  destruct (floor_is _ 2 3); cbn [fst snd e_x e_y].
  - rewrite (is_nan_add_r stageHeight nan eq_refl). now rewrite !orb_true_r.
  - now rewrite !orb_true_r.
Qed.

Lemma sound_spawnGroups (now : Z) (random : nat -> float) (groups : list EnemyData) (j : nat) :
  forall e, In e (spawnGroups now random groups j) -> sound_enemy e = true.
Proof.
  intros e He. apply In_spawnGroups in He as (g & i & _ & ->). apply sound_newEnemy.
Qed.

Lemma sound_spawnWave (now : Z) (random : nat -> float) (n : Z) (s : State) :
  (forall e, In e (enemies s) -> sound_enemy e = true) ->
  forall e, In e (enemies (spawnWave now random n s)) -> sound_enemy e = true.
Proof.
  intros Hs. unfold spawnWave. destruct (find_wave (waves s) n); simpl; [|exact Hs].
  apply sound_spawnGroups.
Qed.

Lemma sound_bootstrap (now : Z) (random : nat -> float) (s : State) :
  (forall e, In e (enemies s) -> sound_enemy e = true) ->
  forall e, In e (enemies (bootstrap now random s)) -> sound_enemy e = true.
Proof.
  intros Hs. unfold bootstrap. destruct (_ && _); [|exact Hs].
  now apply sound_spawnWave.
Qed.

Lemma sound_commit (timeDiff : float) (s : State) :
  (forall e, In e (enemies s) -> sound_enemy e = true) ->
  forall e, In e (enemies (commit (simulate timeDiff s) s)) -> sound_enemy e = true.
Proof.
  intros Hs e He. rewrite enemies_commit, simulate_updatedEnemies in He.
  apply keep_enemies_spec in He as [He _].
  apply List.in_map_iff in He as (e0 & <- & He0).
  apply sound_update_enemy. now apply Hs.
Qed.

Lemma sound_frame (now : Z) (random : nat -> float) (timeDiff : float) (s : State) :
  (forall e, In e (enemies s) -> sound_enemy e = true) ->
  forall e, In e (enemies (frame now random timeDiff s)) -> sound_enemy e = true.
Proof.
  intros Hs. destruct (playing_dec s) as [Hp|Hterm].
  - rewrite (frame_playing _ _ _ _ Hp).
    destruct (verdict _ s); simpl;
      [| apply sound_spawnWave |]; now apply sound_commit.
  - now rewrite frame_terminal.
Qed.

Lemma reachable_sound (s : State) :
  reachable s -> forall e, In e (enemies s) -> sound_enemy e = true.
Proof.
  intros Hreach. induction Hreach as [|s s' _ IH Hstep]; [intros e []|].
  destruct Hstep.
  - apply sound_bootstrap. intros e [].
  - now rewrite enemies_fireTick.
  - unfold rerun_bootstrap. destruct (_ =? _).
    + now apply sound_frame.
    + apply sound_bootstrap. now apply sound_frame.
Qed.

(** C2.  In every frame of every reachable state, for every enemy: the
    divisor of the movement step, whenever that step is reached, is not
    zero; and an enemy at distance zero from the core never reaches it: it
    is marked for removal and gone after the commit, through the
    core-collision exit, which costs the core 10 hit points, unless this
    frame's damage has already killed it.  The frame itself is a total
    function. *)
Theorem no_division_by_zero (timeDiff : float) (s : State) (e : Enemy) :
  reachable s ->
  In e (enemies s) ->
  let p := simulate timeDiff s in
  let dmg := enemiesToDamage (marks p) in
  (forall d, outcome (apply_damage dmg e) = Moves d -> is_zero d = false)
  /\ (is_zero (distToCore e) = true ->
        resolved dmg e = true
        /\ e_id e ∈ enemiesToRemove (toll p)
        /\ (forall e', In e' (enemies (commit p s)) -> e_id e' <> e_id e)
        /\ (jsnum_le0 (e_hp (apply_damage dmg e)) = false ->
              outcome (apply_damage dmg e) = ReachedCore
              /\ reaches_core dmg e = true
              /\ newCoreHp (toll p) <= coreHp s - 10)).
Proof.
  intros Hreach Hin p dmg.
  assert (Hsound : sound_enemy e = true) by now apply (reachable_sound s).
  split.
  - intros d. apply divisor_not_zero. now rewrite sound_apply_damage.
  - intros Hzero.
    assert (Hout : outcome (apply_damage dmg e)
                   = if jsnum_le0 (e_hp (apply_damage dmg e)) then Killed else ReachedCore).
    { apply outcome_zero_distance.
      - rewrite apply_damage_radius. now apply sound_radius.
      - now rewrite apply_damage_distToCore. }
    assert (Hres : resolved dmg e = true).
    { unfold resolved. rewrite Hout. now destruct (jsnum_le0 _). }
    assert (Hrm : e_id e ∈ enemiesToRemove (toll p)).
    { apply simulate_enemiesToRemove. exists e. auto. }
    split; [exact Hres|]. split; [exact Hrm|]. split.
    + intros e' He' Heq. rewrite enemies_commit in He'.
      apply keep_enemies_spec in He' as [_ Hnot]. apply Hnot. now rewrite Heq.
    + intros Halive. rewrite Halive in Hout.
      assert (Hrc : reaches_core dmg e = true)
        by (unfold reaches_core; now rewrite Hout).
      split; [exact Hout|]. split; [exact Hrc|].
      unfold p. rewrite simulate_coreHp. fold p. fold dmg.
      assert (Hmem : In e (List.filter (reaches_core dmg) (enemies s)))
        by (apply List.filter_In; auto).
      destruct (List.filter (reaches_core dmg) (enemies s)); [contradiction|].
      simpl length. lia.
Qed.

(** * Further properties *)

(** ** What each operation leaves alone *)

Lemma waves_spawnWave (now : Z) (random : nat -> float) (n : Z) (s : State) :
  waves (spawnWave now random n s) = waves s.
Proof. unfold spawnWave. now destruct (find_wave (waves s) n). Qed.

Lemma gameState_spawnWave (now : Z) (random : nat -> float) (n : Z) (s : State) :
  gameState (spawnWave now random n s)
  = match find_wave (waves s) n with Some _ => gameState s | None => victory end.
Proof. unfold spawnWave. now destruct (find_wave (waves s) n). Qed.

Lemma spawnWave_split (now : Z) (random : nat -> float) (n : Z) (s : State) :
  (find_wave (waves s) n = None
   /\ spawnWave now random n s = setGameState victory s)
  \/ exists w, find_wave (waves s) n = Some w
               /\ spawnWave now random n s
                  = setCurrentWave n (setEnemies (spawnGroups now random (wd_enemies w) 0) s).
Proof. unfold spawnWave. destruct (find_wave (waves s) n); eauto. Qed.

Lemma gameState_fireTick (now : Z) (s : State) : gameState (fireTick now s) = gameState s.
Proof.
  unfold fireTick. destruct (negb _); [reflexivity|].
  destruct (enemies s); [reflexivity|]. now destruct (nearestEnemy _).
Qed.

Lemma waves_fireTick (now : Z) (s : State) : waves (fireTick now s) = waves s.
Proof.
  unfold fireTick. destruct (negb _); [reflexivity|].
  destruct (enemies s); [reflexivity|]. now destruct (nearestEnemy _).
Qed.

Lemma fireTick_no_enemies (now : Z) (s : State) : enemies s = [] -> fireTick now s = s.
Proof. intros Hnil. unfold fireTick. rewrite Hnil. now destruct (negb _). Qed.

(** The three ways a frame of a [playing] state ends. *)
Lemma frame_cases (now : Z) (random : nat -> float) (timeDiff : float) (s : State) :
  gameState s = playing ->
  let p := simulate timeDiff s in
  (newCoreHp (toll p) <= 0
   /\ frame now random timeDiff s = setGameState gameover (commit p s))
  \/ (0 < newCoreHp (toll p) /\ enemies (commit p s) = [] /\ waves s <> []
      /\ frame now random timeDiff s = spawnWave now random (currentWave s + 1) (commit p s))
  \/ (0 < newCoreHp (toll p) /\ (enemies (commit p s) <> [] \/ waves s = [])
      /\ frame now random timeDiff s = commit p s).
Proof.
  intros Hp p. rewrite (frame_playing _ _ _ _ Hp). fold p. unfold verdict.
  rewrite <- (enemies_commit p s).
  destruct (Z.leb_spec (newCoreHp (toll p)) 0) as [Hdead|Halive]; [auto|].
  right. destruct (enemies (commit p s)) as [|e es] eqn:Hes; simpl.
  - destruct (waves s) as [|w ws] eqn:Hws; simpl.
    + right. auto.
    + left. repeat split; auto; discriminate.
  - right. repeat split; auto.
Qed.

(** What survives the commit: exactly the images of enemies that took the
    moving exit. *)
Lemma In_commit_enemies (timeDiff : float) (s : State) (e' : Enemy) :
  let p := simulate timeDiff s in
  let dmg := enemiesToDamage (marks p) in
  In e' (enemies (commit p s)) ->
  exists e,
    In e (enemies s)
    /\ outcome (apply_damage dmg e) = Moves (distToCore e)
    /\ e' = move (timeDiff / 1000) (apply_damage dmg e) (distToCore e).
Proof.
  intros p dmg He'. rewrite enemies_commit in He'.
  apply keep_enemies_spec in He' as [He' Hkept].
  unfold p in He'. rewrite simulate_updatedEnemies in He'. fold p dmg in He'.
  apply List.in_map_iff in He' as (e & <- & He).
  exists e. split; [exact He|].
  rewrite update_enemy_id in Hkept.
  assert (Hres : resolved dmg e = false).
  { destruct (resolved dmg e) eqn:Hres; [|reflexivity].
    exfalso. apply Hkept. apply simulate_enemiesToRemove. eauto. }
  unfold resolved in Hres. unfold update_enemy.
  destruct (outcome (apply_damage dmg e)) as [| |d] eqn:Hout; try discriminate.
  apply outcome_Moves in Hout as [-> _].
  rewrite apply_damage_distToCore. auto.
Qed.

Lemma simulate_nothing (timeDiff : float) (s : State) :
  enemies s = [] -> bullets s = [] -> commit (simulate timeDiff s) s = s.
Proof.
  intros He Hb. unfold simulate, commit. rewrite He, Hb. simpl.
  rewrite Z.eqb_refl. destruct s; simpl in *. now subst.
Qed.

(** ** The scalar cells hang together *)

Ltac fresh_core := try (exists 0; lia).

Ltac cells :=
  cbn [currentWave coreHp waves enemies bullets gameState
       setGameState setCurrentWave setEnemies setBullets setCoreHp setWaves];
  rewrite ?currentWave_commit, ?coreHp_commit, ?waves_commit, ?gameState_commit.

Lemma Coherent_initial : Coherent initial.
Proof.
  unfold Coherent. simpl.
  repeat split; try lia; try discriminate; auto; try congruence; fresh_core.
Qed.

Lemma Coherent_fetch (data : list WaveData) (now : Z) (random : nat -> float) :
  Coherent (bootstrap now random (setWaves data initial)).
Proof.
  destruct data as [|w ws]; [apply Coherent_initial|].
  unfold bootstrap. simpl.
  destruct (spawnWave_split now random 1 (setWaves (w :: ws) initial))
    as [[Hnone Hs']|(w1 & Hfound & Hs')]; rewrite Hs'; unfold Coherent;
    cbn [setWaves waves] in *; simpl.
  - repeat split; try lia; try discriminate; auto; fresh_core.
    intros _. right. repeat split; auto; discriminate.
  - repeat split; try lia; try discriminate; eauto; fresh_core.
Qed.

Lemma fireTick_cases (now : Z) (s : State) :
  fireTick now s = s
  \/ (gameState s = playing /\ enemies s <> []
      /\ exists b, fireTick now s = setBullets (bullets s ++ [b]) s).
Proof.
  unfold fireTick. destruct (gameState s) eqn:Hg; simpl; auto.
  destruct (enemies s) as [|e es] eqn:Hes; [auto|].
  destruct (nearestEnemy (e :: es)); [|auto].
  right. repeat split; [discriminate|eauto].
Qed.

Lemma Coherent_no_enemies (s : State) :
  Coherent s -> waves s = [] \/ currentWave s = 0 -> enemies s = [].
Proof.
  intros (_ & _ & _ & Hw & H0 & _) [Hws|Hcw].
  - now rewrite (Hw Hws).
  - destruct (H0 Hcw) as [->|(_ & _ & He & _)]; [reflexivity|exact He].
Qed.

Lemma Coherent_fireTick (now : Z) (s : State) :
  Coherent s -> Coherent (fireTick now s).
Proof.
  intros Hs. destruct (fireTick_cases now s) as [->|(Hp & Hes & b & ->)]; [exact Hs|].
  assert (Hws : waves s <> [])
    by (intros H; apply Hes, (Coherent_no_enemies s Hs); auto).
  assert (Hcw : currentWave s <> 0)
    by (intros H; apply Hes, (Coherent_no_enemies s Hs); auto).
  destruct Hs as (H1 & H2 & H3 & _ & _ & H6 & _).
  unfold Coherent. simpl.
  repeat split; auto; try apply H3; try contradiction; congruence.
Qed.

Lemma Coherent_playing (s : State) :
  Coherent s -> gameState s = playing ->
  0 < coreHp s /\ (waves s = [] \/ currentWave s = 0 -> s = initial).
Proof.
  intros (_ & _ & H3 & Hw & H0 & _) Hp. split.
  - destruct (Z.leb_spec (coreHp s) 0) as [Hle|]; [|lia].
    apply H3 in Hle. congruence.
  - intros [Hws|Hcw]; [auto|].
    destruct (H0 Hcw) as [|(_ & Hv & _)]; [assumption|congruence].
Qed.

Lemma Coherent_frame
  (now : Z) (random : nat -> float) (timeDiff : float)
  (now' : Z) (random' : nat -> float) (s : State) :
  Coherent s ->
  Coherent (rerun_bootstrap now' random' s (frame now random timeDiff s)).
Proof.
  intros Hs. destruct (playing_dec s) as [Hp|Hterm];
    [|now rewrite frame_terminal, rerun_bootstrap_same].
  destruct (Coherent_playing s Hs Hp) as [Hhp Hinit].
  pose proof Hs as (H1 & (k & Hk & Hcore) & H3 & _ & _ & H6 & _).
  pose proof (simulate_coreHp timeDiff s) as Hnew.
  set (p := simulate timeDiff s) in *.
  set (c := Z.of_nat (length (List.filter
                (reaches_core (enemiesToDamage (marks p))) (enemies s)))) in *.
  assert (Hk' : exists k', 0 <= k' /\ newCoreHp (toll p) = 100 - 10 * k')
    by (exists (k + c); lia).
  assert (Hfresh : waves s = [] \/ currentWave s = 0 -> newCoreHp (toll p) = 100).
  { intros H. unfold p. rewrite (Hinit H). reflexivity. }
  destruct (frame_cases now random timeDiff s Hp)
    as [(Hdead & ->)|[(Halive & Hempty & Hws & ->)|(Halive & Hrest & ->)]].
  - (* game over *)
    fold p in Hdead |- *.
    unfold rerun_bootstrap. cells. rewrite Z.eqb_refl.
    unfold Coherent. cells.
    repeat split; intros; auto; try discriminate; try lia;
      exfalso; assert (newCoreHp (toll p) = 100) by auto; lia.
  - (* next wave *)
    fold p in Halive, Hempty |- *.
    destruct (spawnWave_split now random (currentWave s + 1) (commit p s))
      as [[Hnone Hs']|(w & Hfound & Hs')]; rewrite Hs'.
    + rewrite waves_commit in Hnone.
      unfold rerun_bootstrap. cells. rewrite Z.eqb_refl.
      unfold Coherent. cells.
      repeat split; intros; auto; try discriminate; try lia; try contradiction.
      exfalso. apply Hws. rewrite Hinit by auto. reflexivity.
    + rewrite waves_commit in Hfound.
      unfold rerun_bootstrap. cells.
      replace (currentWave s =? currentWave s + 1) with false
        by (symmetry; apply Z.eqb_neq; lia).
      rewrite bootstrap_idle by (cells; lia).
      unfold Coherent. cells. rewrite Hp.
      repeat split; intros; eauto; try discriminate; try lia; try contradiction.
  - (* the game goes on *)
    fold p in Halive, Hrest |- *.
    unfold rerun_bootstrap. cells. rewrite Z.eqb_refl.
    unfold Coherent. cells. rewrite Hp.
    assert (Hstay : waves s = [] \/ currentWave s = 0 -> commit p s = initial).
    { intros H. unfold p. rewrite (Hinit H). reflexivity. }
    repeat split; intros; auto; try discriminate; try lia.
Qed.

Lemma reachable_Coherent (s : State) : reachable s -> Coherent s.
Proof.
  intros Hreach. induction Hreach as [|s s' _ IH Hstep]; [apply Coherent_initial|].
  destruct Hstep.
  - apply Coherent_fetch.
  - now apply Coherent_fireTick.
  - now apply Coherent_frame.
Qed.

(** X1.  In every reachable state the game is over exactly when the core
    is depleted; the core's hit points are 100 less a multiple of 10, and
    positive in every state that is not [gameover]. *)
Theorem game_over_iff_core_depleted (s : State) :
  reachable s ->
  (gameState s = gameover <-> coreHp s <= 0)
  /\ (exists k, 0 <= k /\ coreHp s = 100 - 10 * k)
  /\ (gameState s <> gameover -> 0 < coreHp s).
Proof.
  intros Hreach. destruct (reachable_Coherent s Hreach) as (_ & Hk & H3 & _).
  split; [exact H3|]. split; [exact Hk|].
  intros Hnot. destruct (Z.leb_spec (coreHp s) 0) as [Hle|]; [|lia].
  now apply H3 in Hle.
Qed.

Lemma find_wave_None_inv (ws : list WaveData) (n : Z) :
  find_wave ws n = None -> forall w, In w ws -> wd_wave w <> n.
Proof.
  unfold find_wave. intros Hnone w Hw Heq.
  apply (List.find_none _ _ Hnone) in Hw. apply Z.eqb_neq in Hw. contradiction.
Qed.

Lemma find_wave_Some (ws : list WaveData) (n : Z) (w : WaveData) :
  find_wave ws n = Some w -> In w ws /\ wd_wave w = n.
Proof.
  unfold find_wave. intros Hfind. apply List.find_some in Hfind as [Hin Heq].
  split; [exact Hin|]. now apply Z.eqb_eq.
Qed.

(** X2.  A reachable state is [victory] only when the catalog, which has
    arrived and is not empty, has no wave numbered [currentWave + 1]; the
    field is then empty and the core alive. *)
Theorem victory_means_catalog_exhausted (s : State) :
  reachable s ->
  gameState s = victory ->
  waves s <> []
  /\ (forall w, In w (waves s) -> wd_wave w <> currentWave s + 1)
  /\ enemies s = []
  /\ 0 < coreHp s.
Proof.
  intros Hreach Hv.
  destruct (reachable_Coherent s Hreach) as (_ & _ & H3 & Hw & _ & _ & H7).
  destruct (H7 Hv) as [Hnone Hes].
  split; [|split; [now apply find_wave_None_inv|split; [exact Hes|]]].
  - intros Hws. rewrite (Hw Hws) in Hv. discriminate.
  - destruct (Z.leb_spec (coreHp s) 0) as [Hle|]; [|lia].
    apply H3 in Hle. congruence.
Qed.

(** X3.  In every reachable state the current wave number is not negative;
    when it is not 0 the catalog has a wave of that number; and while it is
    0 no enemy has been spawned, no bullet fired and the core is intact. *)
Theorem current_wave_in_catalog (s : State) :
  reachable s ->
  0 <= currentWave s
  /\ (currentWave s <> 0 ->
      exists w, In w (waves s) /\ wd_wave w = currentWave s)
  /\ (currentWave s = 0 -> enemies s = [] /\ bullets s = [] /\ coreHp s = 100).
Proof.
  intros Hreach.
  destruct (reachable_Coherent s Hreach) as (H1 & _ & _ & _ & H0 & H6 & _).
  split; [exact H1|]. split.
  - intros Hcw. destruct (H6 Hcw) as [w Hw]. exists w. now apply find_wave_Some.
  - intros Hcw. destruct (H0 Hcw) as [->|(_ & _ & He & Hb & Hc & _)]; auto.
Qed.

(** X4.  As long as no catalog has arrived, and forever if the catalog
    that arrives is empty, nothing happens: a reachable state with no waves
    is the state the component was mounted in. *)
Theorem idle_without_catalog (s : State) :
  reachable s -> waves s = [] -> s = initial.
Proof.
  intros Hreach. now destruct (reachable_Coherent s Hreach) as (_ & _ & _ & Hw & _).
Qed.

(** ** Enemies of reachable states *)

(** Induction over the enemies of reachable states: an enemy is fresh from
    [newEnemy], or the image under [move] of an earlier one that took the
    moving exit. *)
Lemma reachable_enemies_ind (P : Enemy -> Prop) :
  (forall now random ty j, P (newEnemy now random ty j)) ->
  (forall timeDiff s e,
      reachable s -> In e (enemies s) -> P e ->
      let dmg := enemiesToDamage (marks (simulate timeDiff s)) in
      outcome (apply_damage dmg e) = Moves (distToCore e) ->
      P (move (timeDiff / 1000) (apply_damage dmg e) (distToCore e))) ->
  forall s, reachable s -> forall e, In e (enemies s) -> P e.
Proof.
  intros Hnew Hmove s Hreach.
  assert (Hspawn : forall now random n t,
             (forall e, In e (enemies t) -> P e) ->
             forall e, In e (enemies (spawnWave now random n t)) -> P e).
  { intros now random n t Ht e. unfold spawnWave.
    destruct (find_wave (waves t) n); simpl; [|apply Ht].
    intros He. apply In_spawnGroups in He as (g & i & _ & ->). apply Hnew. }
  assert (Hboot : forall now random t,
             (forall e, In e (enemies t) -> P e) ->
             forall e, In e (enemies (bootstrap now random t)) -> P e).
  { intros now random t Ht. unfold bootstrap.
    destruct (_ && _); [now apply Hspawn | exact Ht]. }
  induction Hreach as [|s s' Hreach IH Hstep]; [intros e []|].
  destruct Hstep.
  - apply Hboot. intros e [].
  - now rewrite enemies_fireTick.
  - assert (Hframe : forall e, In e (enemies (frame now random timeDiff s)) -> P e).
    { destruct (playing_dec s) as [Hp|Hterm]; [|now rewrite frame_terminal].
      assert (Hcommit : forall e, In e (enemies (commit (simulate timeDiff s) s)) -> P e).
      { intros e' He'. apply In_commit_enemies in He' as (e & He & Hout & ->).
        apply Hmove; auto. }
      rewrite (frame_playing _ _ _ _ Hp).
      destruct (verdict _ s); simpl; [exact Hcommit | now apply Hspawn | exact Hcommit]. }
    unfold rerun_bootstrap. destruct (_ =? _); [exact Hframe | now apply Hboot].
Qed.

Lemma simulate_damage_nonneg (timeDiff : float) (s : State) (i : Z) :
  exists k, 0 <= k
            /\ default 0 (enemiesToDamage (marks (simulate timeDiff s)) !! i) = 10 * k.
Proof.
  exists (Z.of_nat (total_hits (timeDiff / 1000) i (enemies s) (bullets s))).
  split; [lia|]. unfold simulate. simpl.
  rewrite forEach_bullet_damage. simpl. rewrite lookup_empty. simpl. lia.
Qed.

(** X5.  No dead enemy stays on the field: in every reachable state each
    enemy's hit points are not at or below 0. *)
Theorem live_enemies_are_alive (s : State) (e : Enemy) :
  reachable s -> In e (enemies s) -> jsnum_le0 (e_hp e) = false.
Proof.
  intros Hreach. revert e.
  apply (reachable_enemies_ind (fun e => jsnum_le0 (e_hp e) = false)); [| |exact Hreach].
  - intros now random ty j. unfold newEnemy, ENEMY_STATS_or_normal. simpl.
    destruct (String.eqb ty "normal"); [reflexivity|].
    destruct (String.eqb ty "fast"); [reflexivity|].
    destruct (String.eqb ty "tank"); [reflexivity|].
    now destruct (inherited_key ty).
  - intros timeDiff s0 e _ _ _ dmg Hout. simpl.
    unfold outcome in Hout. now destruct (jsnum_le0 (e_hp (apply_damage dmg e))).
Qed.

(** X6.  In every reachable state each enemy is true to its kind: its
    radius is the one that the stat lookup gives its kind, and its hit
    points are the kind's initial ones less a multiple of 10, never more. *)
Theorem enemies_true_to_kind (s : State) (e : Enemy) :
  reachable s -> In e (enemies s) -> true_to_kind e.
Proof.
  intros Hreach. revert e.
  apply (reachable_enemies_ind true_to_kind); [| |exact Hreach].
  - intros now random ty j. unfold true_to_kind, newEnemy. simpl.
    split; [reflexivity|].
    destruct (st_hp (ENEMY_STATS_or_normal ty)); [|exact I].
    exists 0. lia.
  - intros timeDiff s0 e _ _ [Hrad Hhp] dmg Hout.
    unfold true_to_kind, move. cbn [e_type e_radius e_hp].
    unfold apply_damage. fold dmg.
    destruct (simulate_damage_nonneg timeDiff s0 (e_id e)) as (k & Hk & Hd).
    fold dmg in Hd.
    destruct (dmg !! e_id e) as [d|]; cbn [e_type e_radius e_hp]; [|auto].
    split; [exact Hrad|].
    destruct (e_hp e) as [h|], (st_hp (ENEMY_STATS_or_normal (e_type e))) as [h0|];
      simpl; auto.
    destruct Hhp as (k0 & Hk0 & ->). simpl in Hd. exists (k0 + k). lia.
Qed.

Lemma NoDup_map_eq {A B : Type} (f : A -> B) (l : list A) (a b : A) :
  NoDup (List.map f l) -> In a l -> In b l -> f a = f b -> a = b.
Proof.
  induction l as [|x l IH]; simpl; [contradiction|].
  intros Hnd. apply NoDup_cons in Hnd as [Hnotin Hnd].
  assert (Hx : forall y, In y l -> f y <> f x).
  { intros y Hy Heq. apply Hnotin. rewrite <- Heq.
    apply list_elem_of_In. now apply in_map. }
  intros [->|Ha] [->|Hb] Heq; auto.
  - symmetry in Heq. now apply Hx in Heq.
  - now apply Hx in Heq.
Qed.

(** X7.  In every reachable state the ids of the live enemies are pairwise
    distinct: two enemies with the same id are the same enemy. *)
Theorem enemy_ids_unique (s : State) (e e' : Enemy) :
  reachable s -> In e (enemies s) -> In e' (enemies s) -> e_id e = e_id e' -> e = e'.
Proof.
  intros Hreach. apply NoDup_map_eq. now apply reachable_NoDup_ids.
Qed.

(** ** More on the frame *)

(** X8.  A frame never makes a bullet and never turns one: each bullet
    after a frame of a [playing] state is a bullet from before, advanced
    along its own direction, and there are no more bullets than before. *)
Theorem frame_only_advances_bullets
  (now : Z) (random : nat -> float) (timeDiff : float) (s : State) :
  gameState s = playing ->
  (forall b', In b' (bullets (frame now random timeDiff s)) ->
     exists b, In b (bullets s) /\ b' = advance (timeDiff / 1000) b
               /\ b_dx b' = b_dx b /\ b_dy b' = b_dy b /\ b_radius b' = b_radius b
               /\ b_id b' = b_id b)
  /\ (length (bullets (frame now random timeDiff s)) <= length (bullets s))%nat.
Proof.
  intros Hp. rewrite (bullets_frame _ _ _ _ Hp). split.
  - intros b' Hb'. apply keep_bullets_spec in Hb' as [Hb' _].
    apply List.in_map_iff in Hb' as (b & <- & Hb). exists b. auto 10.
  - unfold keep_bullets.
    etransitivity; [apply List.filter_length_le|]. now rewrite length_map.
Qed.

Lemma flies_on_spec (delta : float) (es : list Enemy) (b : Bullet) :
  flies_on delta es b = true ->
  out_of_bounds (advance delta b) || existsb (overlaps (advance delta b)) es = false.
Proof.
  unfold flies_on. intros Hfly. apply andb_true_iff in Hfly as [Hin Hfree].
  apply negb_true_iff in Hin. rewrite Hin. simpl.
  induction es as [|e es IH]; simpl in *; [reflexivity|].
  apply andb_true_iff in Hfree as [He Hes]. apply negb_true_iff in He.
  rewrite He. simpl. now apply IH.
Qed.

(** X9.  A bullet whose id no other bullet shares, and which after
    advancing is inside the viewport and overlaps no enemy, is still there
    after the frame, advanced. *)
Theorem bullet_flies_on
  (now : Z) (random : nat -> float) (timeDiff : float) (s : State) (b : Bullet) :
  gameState s = playing ->
  NoDup (List.map b_id (bullets s)) ->
  In b (bullets s) ->
  flies_on (timeDiff / 1000) (enemies s) b = true ->
  In (advance (timeDiff / 1000) b) (bullets (frame now random timeDiff s)).
Proof.
  intros Hp Hnd Hb Hfly. rewrite (bullets_frame _ _ _ _ Hp).
  apply keep_bullets_spec. split; [now apply in_map|].
  intros Hmark. apply simulate_bulletsToRemove in Hmark as (b0 & Hb0 & Hid & Hhit).
  assert (b0 = b) by (apply (NoDup_map_eq b_id (bullets s)); auto).
  subst b0. rewrite (flies_on_spec _ _ _ Hfly) in Hhit. discriminate.
Qed.

Lemma filter_map_swap {A B : Type} (f : B -> bool) (g : A -> B) (l : list A) :
  List.filter f (List.map g l) = List.map g (List.filter (fun a => f (g a)) l).
Proof.
  induction l as [|a l IH]; simpl; [reflexivity|].
  destruct (f (g a)); simpl; now rewrite IH.
Qed.

(** X10.  When the enemies' ids are pairwise distinct, the enemy set that a
    frame commits is, in order, the enemies that took neither the kill exit
    nor the core-collision exit, each with its damage applied and moved. *)
Theorem committed_enemies (timeDiff : float) (s : State) :
  NoDup (List.map e_id (enemies s)) ->
  let p := simulate timeDiff s in
  let dmg := enemiesToDamage (marks p) in
  enemies (commit p s)
  = List.map (fun e => move (timeDiff / 1000) (apply_damage dmg e) (distToCore e))
             (List.filter (fun e => negb (resolved dmg e)) (enemies s)).
Proof.
  intros Hnd p dmg. rewrite enemies_commit. unfold p at 2.
  rewrite simulate_updatedEnemies. fold p dmg.
  unfold keep_enemies. rewrite filter_map_swap.
  rewrite (List.filter_ext_in _ (fun e => negb (resolved dmg e))).
  - apply List.map_ext_in. intros e He. apply List.filter_In in He as [_ Hres].
    apply negb_true_iff in Hres. unfold resolved in Hres. unfold update_enemy.
    destruct (outcome (apply_damage dmg e)) as [| |d] eqn:Hout; try discriminate.
    apply outcome_Moves in Hout as [-> _]. now rewrite apply_damage_distToCore.
  - intros e He. f_equal. rewrite update_enemy_id.
    destruct (resolved dmg e) eqn:Hres.
    + apply bool_decide_eq_true. apply simulate_enemiesToRemove. eauto.
    + apply bool_decide_eq_false. intros Hmark.
      apply simulate_enemiesToRemove in Hmark as (e0 & He0 & Hid & Hres0).
      assert (e0 = e) by (apply (NoDup_map_eq e_id (enemies s)); auto).
      subst e0. fold p dmg in Hres0. congruence.
Qed.

Lemma collide_miss (b : Bullet) (es : list Enemy) (m : Marks) :
  forallb (fun e => negb (overlaps b e)) es = true ->
  fold_left (collide b) es m = m.
Proof.
  induction es as [|e es IH]; simpl; [reflexivity|].
  intros Hfree. apply andb_true_iff in Hfree as [He Hes].
  apply negb_true_iff in He. unfold collide at 2. rewrite He. now apply IH.
Qed.

Lemma forEach_bullet_quiet (delta : float) (es : list Enemy) (bs : list Bullet) :
  forallb (flies_on delta es) bs = true ->
  forall m, snd (forEach_bullet delta es bs m) = m.
Proof.
  induction bs as [|b bs IH]; simpl; [reflexivity|].
  intros Hall m. apply andb_true_iff in Hall as [Hb Hbs].
  rewrite (IH Hbs). unfold flies_on in Hb. apply andb_true_iff in Hb as [Hin Hfree].
  apply negb_true_iff in Hin. rewrite Hin. now apply collide_miss.
Qed.

(** X11.  A frame in which every advanced bullet stays inside the viewport
    and overlaps no enemy marks nothing: both the removal set and the
    damage map stay empty, every bullet is kept, advanced, and no enemy's
    hit points change. *)
Theorem quiet_frame (now : Z) (random : nat -> float) (timeDiff : float) (s : State) :
  gameState s = playing ->
  forallb (flies_on (timeDiff / 1000) (enemies s)) (bullets s) = true ->
  let p := simulate timeDiff s in
  bulletsToRemove (marks p) = ∅
  /\ enemiesToDamage (marks p) = ∅
  /\ bullets (frame now random timeDiff s)
     = List.map (advance (timeDiff / 1000)) (bullets s)
  /\ forall e, apply_damage (enemiesToDamage (marks p)) e = e.
Proof.
  intros Hp Hquiet p.
  assert (Hmarks : marks p = mkMarks ∅ ∅).
  { unfold p, simulate. simpl. now apply forEach_bullet_quiet. }
  rewrite (bullets_frame _ _ _ _ Hp). fold p. rewrite Hmarks. simpl.
  split; [reflexivity|]. split; [reflexivity|]. split.
  - unfold keep_bullets. apply List.forallb_filter_id.
    apply List.forallb_forall. intros b _. reflexivity.
  - intros e. unfold apply_damage. now rewrite lookup_empty.
Qed.

Lemma collide_lookup (b : Bullet) (i : Z) (es : list Enemy) :
  forall m,
    enemiesToDamage (fold_left (collide b) es m) !! i
    = if Nat.eqb (hit_count b i es) 0 then enemiesToDamage m !! i
      else Some (default 0 (enemiesToDamage m !! i) + 10 * Z.of_nat (hit_count b i es)).
Proof.
  unfold hit_count.
  induction es as [|e es IH]; intros m; simpl; [reflexivity|].
  rewrite IH. unfold collide.
  destruct (overlaps b e) eqn:Hov; simpl.
  - rewrite lookup_insert.
    destruct (decide (e_id e = i)) as [->|Hne].
    + rewrite Z.eqb_refl. simpl.
      destruct (Nat.eqb_spec (length (List.filter
                 (fun e0 => (e_id e0 =? i) && overlaps b e0) es)) 0) as [->|_];
        f_equal; lia.
    + apply Z.eqb_neq in Hne. rewrite Hne. reflexivity.
  - now rewrite andb_false_r.
Qed.

Lemma forEach_bullet_lookup (delta : float) (i : Z) (es : list Enemy) (bs : list Bullet) :
  forall m,
    enemiesToDamage (snd (forEach_bullet delta es bs m)) !! i
    = if Nat.eqb (total_hits delta i es bs) 0 then enemiesToDamage m !! i
      else Some (default 0 (enemiesToDamage m !! i)
                 + 10 * Z.of_nat (total_hits delta i es bs)).
Proof.
  induction bs as [|b bs IH]; intros m; simpl; [reflexivity|].
  rewrite IH, collide_lookup.
  assert (Hm1 : forall m1,
             enemiesToDamage m1 = enemiesToDamage m ->
             (if Nat.eqb (total_hits delta i es bs) 0
              then if Nat.eqb (hit_count (advance delta b) i es) 0
                   then enemiesToDamage m1 !! i
                   else Some (default 0 (enemiesToDamage m1 !! i)
                              + 10 * Z.of_nat (hit_count (advance delta b) i es))
              else Some (default 0
                           (if Nat.eqb (hit_count (advance delta b) i es) 0
                            then enemiesToDamage m1 !! i
                            else Some (default 0 (enemiesToDamage m1 !! i)
                                       + 10 * Z.of_nat (hit_count (advance delta b) i es)))
                         + 10 * Z.of_nat (total_hits delta i es bs)))
             = if Nat.eqb (hit_count (advance delta b) i es + total_hits delta i es bs) 0
               then enemiesToDamage m !! i
               else Some (default 0 (enemiesToDamage m !! i)
                          + 10 * Z.of_nat (hit_count (advance delta b) i es
                                           + total_hits delta i es bs))).
  { intros m1 ->.
    destruct (hit_count (advance delta b) i es) as [|h],
             (total_hits delta i es bs) as [|t]; simpl Nat.eqb; cbv iota;
      try reflexivity; simpl default; f_equal; lia. }
  destruct (out_of_bounds (advance delta b)); now apply Hm1.
Qed.

(** X12.  Whatever the ids, the damage map of a frame has an entry for an
    id exactly when some advanced bullet overlaps some enemy with that id,
    and the entry is 10 times the number of such (bullet, enemy) pairs. *)
Theorem damage_map_entries (timeDiff : float) (s : State) (i : Z) :
  let hits := total_hits (timeDiff / 1000) i (enemies s) (bullets s) in
  enemiesToDamage (marks (simulate timeDiff s)) !! i
  = if Nat.eqb hits 0 then None else Some (10 * Z.of_nat hits).
Proof.
  intros hits. unfold simulate. simpl. rewrite forEach_bullet_lookup.
  fold hits. simpl. rewrite lookup_empty. simpl.
  destruct (Nat.eqb hits 0); [reflexivity|]. f_equal.
Qed.

(** X13.  Whatever the ids, an enemy that a frame commits comes from an
    enemy before the frame with the same id, kind and radius, whose hit
    points less this frame's damage are its own and are not at or below 0,
    and which did not touch the core. *)
Theorem surviving_enemy (timeDiff : float) (s : State) (e' : Enemy) :
  let p := simulate timeDiff s in
  let dmg := enemiesToDamage (marks p) in
  In e' (enemies (commit p s)) ->
  exists e,
    In e (enemies s)
    /\ e_id e' = e_id e /\ e_type e' = e_type e /\ e_radius e' = e_radius e
    /\ e_hp e' = jsnum_sub (e_hp e) (default 0 (dmg !! e_id e))
    /\ jsnum_le0 (e_hp e') = false
    /\ (distToCore e <? coreRadius + e_radius e)%float = false.
Proof.
  intros p dmg He'. apply In_commit_enemies in He' as (e & He & Hout & ->).
  fold p dmg in Hout. fold p dmg. exists e. split; [exact He|].
  cbn [move e_id e_type e_radius e_hp].
  rewrite apply_damage_id, apply_damage_hp, apply_damage_radius.
  repeat split; try reflexivity.
  - unfold apply_damage. now destruct (dmg !! e_id e).
  - unfold outcome in Hout. rewrite apply_damage_hp in Hout.
    now destruct (jsnum_le0 _).
  - apply outcome_Moves in Hout as [_ Hfar].
    now rewrite apply_damage_distToCore, apply_damage_radius in Hfar.
Qed.

(** X14.  A frame that asks for no wave adds no enemy: the enemy set after
    it is the committed one, no larger than before. *)
Theorem frame_adds_no_enemy
  (now : Z) (random : nat -> float) (timeDiff : float) (s : State) :
  requested_wave timeDiff s = None ->
  enemies (frame now random timeDiff s)
  = (if GameState_eqb (gameState s) playing
     then enemies (commit (simulate timeDiff s) s) else enemies s)
  /\ (length (enemies (frame now random timeDiff s)) <= length (enemies s))%nat.
Proof.
  intros Hreq. unfold requested_wave in Hreq. unfold frame.
  destruct (gameState s); simpl in *; auto.
  set (p := simulate timeDiff s) in *.
  assert (Hle : (length (enemies (commit p s)) <= length (enemies s))%nat).
  { rewrite enemies_commit. unfold keep_enemies, p.
    etransitivity; [apply List.filter_length_le|].
    now rewrite simulate_updatedEnemies, length_map. }
  destruct (verdict p s); [| discriminate |]; auto.
Qed.

(** ** More on the fire controller *)

(** X15.  A fire tick touches nothing but the bullets, and those it only
    extends: by at most one bullet, which sits on the core, has radius 5
    and the tick's clock reading as its id. *)
Theorem fireTick_only_appends (now : Z) (s : State) :
  exists fired,
    fireTick now s = setBullets (bullets s ++ fired) s
    /\ (length fired <= 1)%nat
    /\ forall b, In b fired ->
         b_id b = now /\ b_x b = coreX /\ b_y b = coreY /\ b_radius b = 5%float.
Proof.
  assert (Hsame : s = setBullets (bullets s ++ []) s)
    by (rewrite app_nil_r; now destruct s).
  unfold fireTick. destruct (negb _).
  - exists []. split; [exact Hsame|]. split; [simpl; lia | intros b []].
  - destruct (enemies s) as [|e es].
    + exists []. split; [exact Hsame|]. split; [simpl; lia | intros b []].
    + destruct (nearestEnemy (e :: es)) as [t|].
      * exists [newBullet now t]. split; [reflexivity|]. split; [simpl; lia|].
        intros b [<-|[]]. auto.
      * exists []. split; [exact Hsame|]. split; [simpl; lia | intros b []].
Qed.

(** X16.  When no enemy is at a distance below infinity (each distance is
    infinite or not a number), a fire tick emits nothing, however many
    enemies there are. *)
Theorem fireTick_out_of_reach (now : Z) (s : State) :
  (forall e, In e (enemies s) -> (distToCore e <? infinity)%float = false) ->
  fireTick now s = s.
Proof.
  intros Hfar. unfold fireTick, nearestEnemy.
  rewrite (nearer_out_of_reach _ Hfar).
  destruct (negb _); [reflexivity|]. now destruct (enemies s).
Qed.

(** ** Values that are not numbers *)

Lemma ltb_nan_l (x y : float) : is_nan x = true -> (x <? y)%float = false.
Proof.
  rewrite is_nan_spec, FloatAxioms.ltb_spec. now intros ->.
Qed.

Lemma ltb_nan_r (x y : float) : is_nan y = true -> (x <? y)%float = false.
Proof.
  rewrite is_nan_spec, FloatAxioms.ltb_spec. intros ->.
  unfold SFltb. now destruct (Prim2SF x).
Qed.

Lemma is_nan_mul_r (x y : float) : is_nan y = true -> is_nan (x * y) = true.
Proof.
  rewrite !is_nan_spec, FloatAxioms.mul_spec. intros ->. now destruct (Prim2SF x).
Qed.

Lemma advance_lost (delta : float) (b : Bullet) :
  lost_bullet b = true ->
  is_nan (b_x (advance delta b)) = true /\ is_nan (b_y (advance delta b)) = true.
Proof.
  unfold lost_bullet. intros Hlost. apply andb_true_iff in Hlost as [Hx Hy].
  simpl. split.
  - apply orb_true_iff in Hx as [Hx|Hdx]; [now apply is_nan_add_l|].
    now apply is_nan_add_r, is_nan_mul_l, is_nan_mul_l.
  - apply orb_true_iff in Hy as [Hy|Hdy]; [now apply is_nan_add_l|].
    now apply is_nan_add_r, is_nan_mul_l, is_nan_mul_l.
Qed.

Lemma lost_flies_on (delta : float) (es : list Enemy) (b : Bullet) :
  lost_bullet b = true -> flies_on delta es b = true.
Proof.
  intros Hlost. destruct (advance_lost delta b Hlost) as [Hx Hy].
  unfold flies_on, out_of_bounds.
  rewrite (ltb_nan_l _ _ Hx), (ltb_nan_r _ _ Hx), (ltb_nan_l _ _ Hy), (ltb_nan_r _ _ Hy).
  simpl. apply List.forallb_forall. intros e _. apply negb_true_iff.
  unfold overlaps. apply ltb_nan_l, is_nan_sqrt, is_nan_add_l.
  unfold pow2. now apply is_nan_mul_l, is_nan_sub_l.
Qed.

(** X17.  A bullet whose coordinates are not numbers, or will not be after
    the next advance because its direction is not a number, is never marked:
    if no other bullet shares its id it is still there after the frame,
    and still such a bullet. *)
Theorem lost_bullet_stays
  (now : Z) (random : nat -> float) (timeDiff : float) (s : State) (b : Bullet) :
  gameState s = playing ->
  NoDup (List.map b_id (bullets s)) ->
  In b (bullets s) ->
  lost_bullet b = true ->
  In (advance (timeDiff / 1000) b) (bullets (frame now random timeDiff s))
  /\ lost_bullet (advance (timeDiff / 1000) b) = true.
Proof.
  intros Hp Hnd Hb Hlost. split.
  - rewrite (bullets_frame _ _ _ _ Hp).
    apply keep_bullets_spec. split; [now apply in_map|].
    intros Hmark. apply simulate_bulletsToRemove in Hmark as (b0 & Hb0 & Hid & Hhit).
    assert (b0 = b) by (apply (NoDup_map_eq b_id (bullets s)); auto).
    subst b0.
    pose proof (lost_flies_on (timeDiff / 1000) (enemies s) b Hlost) as Hfly.
    rewrite (flies_on_spec _ _ _ Hfly) in Hhit. discriminate.
  - destruct (advance_lost (timeDiff / 1000) b Hlost) as [Hx Hy].
    unfold lost_bullet. now rewrite Hx, Hy.
Qed.

(** ** Kinds that name inherited properties *)

Lemma inherited_lookup (key : string) :
  inherited_key key = true -> ENEMY_STATS_or_normal key = stats_inherited.
Proof.
  unfold inherited_key, Object_prototype_keys. cbn [existsb]. intros Hin.
  repeat (apply orb_true_iff in Hin as [Hin|Hin];
          [apply String.eqb_eq in Hin; subst key; reflexivity|]).
  discriminate.
Qed.

(** X18.  The lookup [ENEMY_STATS[key] || ENEMY_STATS.normal] gives the
    profile that the table, with [normal] as the default, assigns the key
    exactly for the keys that name no inherited property; for those that do
    it gives a value none of whose three fields is a number. *)
Theorem stat_lookup_agrees_iff (key : string) :
  (ENEMY_STATS_or_normal key = stat_profile key <-> inherited_key key = false)
  /\ (inherited_key key = true ->
      ENEMY_STATS_or_normal key = mkStats NaN nan nan /\ in_stat_table key = false).
Proof.
  split; [split|].
  - destruct (inherited_key key) eqn:Hin; [|reflexivity].
    rewrite (inherited_lookup key Hin). unfold stat_profile.
    destruct (String.eqb key "fast"); [discriminate|].
    destruct (String.eqb key "tank"); discriminate.
  - apply stat_profile_agrees.
  - intros Hin. split; [now apply inherited_lookup|].
    pose proof (inherited_lookup key Hin) as Hlook.
    unfold ENEMY_STATS_or_normal in Hlook. unfold in_stat_table.
    destruct (String.eqb key "normal"); [discriminate|].
    destruct (String.eqb key "fast"); [discriminate|].
    destruct (String.eqb key "tank"); [discriminate|reflexivity].
Qed.

Lemma ghost_newEnemy (now : Z) (random : nat -> float) (ty : string) (j : nat) :
  inherited_key ty = true -> ghost (newEnemy now random ty j) = true.
Proof.
  intros Hin. unfold ghost, newEnemy. cbn [e_hp e_radius].
  now rewrite (inherited_lookup ty Hin).
Qed.

Lemma In_spawnGroup_first (now : Z) (random : nat -> float) (ty : string) (n j : nat) :
  (0 < n)%nat -> In (newEnemy now random ty j) (spawnGroup now random ty n j).
Proof. destruct n; [lia|]. intros _. now left. Qed.

Lemma In_spawnGroups_first
  (now : Z) (random : nat -> float) (groups : list EnemyData) (g : EnemyData) :
  In g groups -> 0 < ed_count g ->
  forall j, exists i, In (newEnemy now random (ed_type g) i) (spawnGroups now random groups j).
Proof.
  induction groups as [|g0 groups IH]; simpl; [contradiction|].
  intros [->|Hg] Hpos j.
  - exists j. apply in_or_app. left. apply In_spawnGroup_first. lia.
  - destruct (IH Hg Hpos (j + Z.to_nat (ed_count g0))%nat) as [i Hi].
    exists i. apply in_or_app. now right.
Qed.

(** X19.  A wave with a group of positive count whose kind names an
    inherited property puts a ghost on the field: an enemy of that kind
    whose hit points and radius are not numbers. *)
Theorem inherited_kind_makes_ghost
  (now : Z) (random : nat -> float) (n : Z) (s : State) (w : WaveData) (g : EnemyData) :
  find_wave (waves s) n = Some w ->
  In g (wd_enemies w) ->
  0 < ed_count g ->
  inherited_key (ed_type g) = true ->
  exists e, In e (enemies (spawnWave now random n s))
            /\ e_type e = ed_type g /\ ghost e = true.
Proof.
  intros Hfind Hg Hpos Hin. unfold spawnWave. rewrite Hfind. simpl.
  destruct (In_spawnGroups_first now random _ g Hg Hpos 0%nat) as [i Hi].
  exists (newEnemy now random (ed_type g) i). split; [exact Hi|].
  split; [reflexivity | now apply ghost_newEnemy].
Qed.

Lemma ghost_outcome (dmg : gmap Z Z) (e : Enemy) :
  ghost e = true -> outcome (apply_damage dmg e) = Moves (distToCore e).
Proof.
  unfold ghost. destruct (e_hp e) eqn:Hhp; [discriminate|]. intros Hrad.
  unfold outcome. rewrite apply_damage_hp, Hhp. simpl.
  rewrite apply_damage_distToCore, apply_damage_radius.
  rewrite ltb_nan_r by now apply is_nan_add_r. reflexivity.
Qed.

Lemma ghost_update_enemy (delta : float) (dmg : gmap Z Z) (e : Enemy) :
  ghost e = true -> ghost (update_enemy delta dmg e) = true.
Proof.
  intros Hg. unfold update_enemy. rewrite (ghost_outcome dmg e Hg).
  unfold ghost in *. cbn [move e_hp e_radius].
  rewrite apply_damage_hp, apply_damage_radius.
  destruct (e_hp e); [discriminate|exact Hg].
Qed.

Lemma In_commit_unresolved (timeDiff : float) (s : State) (e : Enemy) :
  let p := simulate timeDiff s in
  let dmg := enemiesToDamage (marks p) in
  NoDup (List.map e_id (enemies s)) ->
  In e (enemies s) ->
  resolved dmg e = false ->
  In (update_enemy (timeDiff / 1000) dmg e) (enemies (commit p s)).
Proof.
  intros p dmg Hnd He Hres. rewrite enemies_commit.
  apply keep_enemies_spec. split.
  - unfold p. rewrite simulate_updatedEnemies. fold p dmg. now apply in_map.
  - rewrite update_enemy_id. intros Hmark.
    apply simulate_enemiesToRemove in Hmark as (e0 & He0 & Hid & Hres0).
    assert (e0 = e) by (apply (NoDup_map_eq e_id (enemies s)); auto).
    subst e0. fold p dmg in Hres0. congruence.
Qed.

Lemma ghost_step (s s' : State) (i : Z) :
  reachable s -> step s s' ->
  (exists e, In e (enemies s) /\ ghost e = true /\ e_id e = i) ->
  (exists e', In e' (enemies s') /\ ghost e' = true /\ e_id e' = i)
  /\ currentWave s' = currentWave s.
Proof.
  intros Hreach Hstep (e & He & Hg & Hi). destruct Hstep.
  - contradiction.
  - rewrite enemies_fireTick, currentWave_fireTick. eauto.
  - destruct (playing_dec s) as [Hp|Hterm];
      [|rewrite frame_terminal, rerun_bootstrap_same by assumption; eauto].
    set (p := simulate timeDiff s).
    set (dmg := enemiesToDamage (marks p)).
    assert (Hkept : In (update_enemy (timeDiff / 1000) dmg e) (enemies (commit p s))).
    { apply In_commit_unresolved; [now apply reachable_NoDup_ids | exact He |].
      unfold resolved. fold p dmg. now rewrite (ghost_outcome dmg e Hg). }
    assert (Hframe : frame now random timeDiff s = commit p s
                     \/ frame now random timeDiff s = setGameState gameover (commit p s)).
    { destruct (frame_cases now random timeDiff s Hp)
        as [(_ & ->)|[(_ & Hempty & _)|(_ & _ & ->)]]; auto.
      fold p in Hempty. rewrite Hempty in Hkept. contradiction. }
    assert (Hcw : currentWave (frame now random timeDiff s) = currentWave s)
      by (destruct Hframe as [->| ->]; simpl; apply currentWave_commit).
    unfold rerun_bootstrap. rewrite Hcw, Z.eqb_refl. split; [|exact Hcw].
    exists (update_enemy (timeDiff / 1000) dmg e).
    split; [destruct Hframe as [->| ->]; exact Hkept|].
    split; [now apply ghost_update_enemy | now rewrite update_enemy_id].
Qed.

(** X20.  A ghost is never removed: from a reachable state with a ghost on
    the field, every later state still has a ghost with that id, the
    current wave number never changes again and the game never reaches
    [victory]. *)
Theorem ghost_blocks_the_waves (s t : State) (e : Enemy) :
  reachable s ->
  In e (enemies s) ->
  ghost e = true ->
  rtc step s t ->
  (exists e', In e' (enemies t) /\ ghost e' = true /\ e_id e' = e_id e)
  /\ currentWave t = currentWave s
  /\ gameState t <> victory.
Proof.
  intros Hreach He Hg Hsteps.
  assert (Hinv : reachable t
                 /\ (exists e', In e' (enemies t) /\ ghost e' = true /\ e_id e' = e_id e)
                 /\ currentWave t = currentWave s).
  { assert (Hs : exists e', In e' (enemies s) /\ ghost e' = true /\ e_id e' = e_id e)
      by eauto.
    clear He Hg. revert Hreach Hs.
    induction Hsteps as [x|x y z Hxy _ IH]; intros Hreach Hx; [auto|].
    destruct (ghost_step x y (e_id e) Hreach Hxy Hx) as [Hy Hcw].
    destruct (IH (reachable_step _ _ x y Hreach Hxy) Hy) as (Hz & Hgz & Hcz).
    split; [exact Hz|]. split; [exact Hgz|]. congruence. }
  destruct Hinv as (Ht & Hgt & Hcw). split; [exact Hgt|]. split; [exact Hcw|].
  intros Hv. destruct (reachable_Coherent t Ht) as (_ & _ & _ & _ & _ & _ & H7).
  destruct (H7 Hv) as [_ Hnil]. destruct Hgt as (e' & He' & _).
  rewrite Hnil in He'. contradiction.
Qed.

(** ** More on spawning *)

(** X21.  A group spawns as many enemies as its count when that is
    positive and none otherwise, so a wave spawns no enemy exactly when
    none of its counts is positive. *)
Theorem spawn_counts (now : Z) (random : nat -> float) (groups : list EnemyData) (j : nat) :
  length (spawnGroups now random groups j)
  = list_sum (List.map (fun g => Z.to_nat (ed_count g)) groups)
  /\ (spawnGroups now random groups j = []
      <-> Forall (fun g => ed_count g <= 0) groups).
Proof.
  split.
  - revert j. induction groups as [|g groups IH]; intros j; simpl; [reflexivity|].
    now rewrite length_app, length_spawnGroup, IH.
  - revert j. induction groups as [|g groups IH]; intros j; simpl.
    + split; [constructor|reflexivity].
    + split.
      * intros Hnil. apply app_eq_nil in Hnil as [Hg Hrest].
        constructor; [|now apply (IH (j + Z.to_nat (ed_count g))%nat)].
        apply (f_equal (@length Enemy)) in Hg. rewrite length_spawnGroup in Hg.
        simpl in Hg. lia.
      * intros Hall. apply Forall_cons in Hall as [Hg Hrest].
        replace (Z.to_nat (ed_count g)) with 0%nat by lia. simpl.
        now apply IH.
Qed.

(** X22.  The enemies of a spawned wave carry, in spawn order, the ids
    [Date.now()], [Date.now() + 1], and so on. *)
Theorem spawned_ids_consecutive
  (now : Z) (random : nat -> float) (n : Z) (s : State) (w : WaveData) :
  find_wave (waves s) n = Some w ->
  let es := enemies (spawnWave now random n s) in
  List.map e_id es = List.map (fun i => now + Z.of_nat i) (List.seq 0 (length es))
  /\ forall k e, nth_error es k = Some e -> e_id e = now + Z.of_nat k.
Proof.
  intros Hfind es.
  assert (Hes : es = spawnGroups now random (wd_enemies w) 0)
    by (unfold es, spawnWave; now rewrite Hfind).
  assert (Hids : List.map e_id es
                 = List.map (fun i => now + Z.of_nat i) (List.seq 0 (length es)))
    by (rewrite Hes; apply ids_spawnGroups).
  split; [exact Hids|].
  intros k e Hk.
  assert (Hlt : (k < length es)%nat) by (apply List.nth_error_Some; congruence).
  apply (List.nth_error_nth _ _ e) in Hk.
  rewrite <- Hk at 1.
  rewrite <- (List.map_nth e_id es e k).
  rewrite (List.nth_indep _ _ (now + Z.of_nat 0)) by now rewrite length_map.
  rewrite Hids.
  rewrite (List.map_nth (fun i => now + Z.of_nat i)).
  now rewrite List.seq_nth.
Qed.

(** X23.  What the arrival of the catalog does to the freshly mounted
    component: nothing for an empty catalog; immediate [victory], with no
    enemy and the wave number still 0, for a catalog that has no wave
    numbered 1; and otherwise wave 1 on the field. *)
Theorem catalog_arrival (data : list WaveData) (now : Z) (random : nat -> float) :
  let s := bootstrap now random (setWaves data initial) in
  waves s = data /\ bullets s = [] /\ coreHp s = 100
  /\ (data = [] -> s = initial)
  /\ (data <> [] -> find_wave data 1 = None ->
      gameState s = victory /\ currentWave s = 0 /\ enemies s = [])
  /\ (forall w, find_wave data 1 = Some w ->
      gameState s = playing /\ currentWave s = 1
      /\ enemies s = spawnGroups now random (wd_enemies w) 0).
Proof.
  intros s. unfold s, bootstrap, spawnWave. cbn [setWaves waves currentWave initial].
  destruct data as [|w0 ws].
  - simpl. repeat split; auto; try discriminate; congruence.
  - cbn [length Nat.ltb Nat.leb andb Z.eqb].
    destruct (find_wave (w0 :: ws) 1) as [w|]; simpl.
    + repeat split; auto; try discriminate; try congruence.
      all: intros w' [= <-]; reflexivity.
    + repeat split; auto; discriminate.
Qed.

Lemma find_wave_first (pre post : list WaveData) (w : WaveData) (n : Z) :
  wd_wave w = n ->
  (forall w', In w' pre -> wd_wave w' <> n) ->
  find_wave (pre ++ w :: post) n = Some w.
Proof.
  intros Hw. unfold find_wave.
  induction pre as [|a pre IH]; simpl; intros Hpre.
  - apply Z.eqb_eq in Hw. now rewrite Hw.
  - assert (Ha : wd_wave a <> n) by (apply Hpre; now left).
    apply Z.eqb_neq in Ha. rewrite Ha. apply IH. intros w' Hw'. apply Hpre. now right.
Qed.

(** X24.  Waves are looked up by their number, not by their place, and of
    several records with the same number the first one counts: whatever
    follows it in the catalog, [spawnWave n] spawns the groups of the first
    record numbered [n]. *)
Theorem spawnWave_first_record
  (now : Z) (random : nat -> float) (n : Z) (s : State)
  (pre post : list WaveData) (w : WaveData) :
  waves s = pre ++ w :: post ->
  wd_wave w = n ->
  (forall w', In w' pre -> wd_wave w' <> n) ->
  spawnWave now random n s
  = setCurrentWave n (setEnemies (spawnGroups now random (wd_enemies w) 0) s).
Proof.
  intros Hws Hw Hpre. unfold spawnWave. rewrite Hws.
  now rewrite (find_wave_first pre post w n Hw Hpre).
Qed.

(** X25.  What is drawn in a reachable state: one rectangle per live
    enemy, under pairwise distinct keys; the GAME OVER overlay exactly when
    the displayed core hit points are at or below 0; the VICTORY overlay
    only over a field without enemies; and no overlay exactly while the
    game is being played. *)
Theorem render_reachable (s : State) :
  reachable s ->
  let v := render s in
  NoDup (List.map r_key (v_enemies v))
  /\ length (v_enemies v) = length (enemies s)
  /\ (v_overlays v = [ "GAME OVER"%string ] <-> v_coreHp v <= 0)
  /\ (v_overlays v = [ "VICTORY!"%string ] -> v_enemies v = [])
  /\ (v_overlays v = [] <-> gameState s = playing).
Proof.
  intros Hreach v. unfold v, render. cbn [v_enemies v_overlays v_coreHp].
  destruct (reachable_Coherent s Hreach) as (_ & _ & H3 & _ & _ & _ & H7).
  split; [|split; [apply length_map|]].
  - rewrite List.map_map. cbn [enemy_rect r_key]. now apply reachable_NoDup_ids.
  - destruct (gameState s) eqn:Hg; simpl.
    + repeat split; try discriminate; auto.
      * intros Hle. apply H3 in Hle. discriminate.
    + repeat split; try discriminate; auto.
      * intros _. now apply H3.
    + destruct (H7 eq_refl) as [_ Hnil]. repeat split; try discriminate; auto.
      * intros Hle. apply H3 in Hle. discriminate.
      * intros _. now rewrite Hnil.
Qed.

(** X26.  The clock and the random source matter to a frame only when it
    asks for a wave: with no wave requested, the frame's result is the same
    whatever [Date.now()] and [Math.random()] would have answered. *)
Theorem frame_ignores_oracles
  (now now' : Z) (random random' : nat -> float) (timeDiff : float) (s : State) :
  requested_wave timeDiff s = None ->
  frame now random timeDiff s = frame now' random' timeDiff s.
Proof.
  unfold requested_wave, frame. destruct (negb _); [reflexivity|].
  destruct (verdict (simulate timeDiff s) s); [reflexivity|discriminate|reflexivity].
Qed.

End ViewportFacts.

(** * Instances on concrete states *)

Local Abbreviation W := demo_width.
Local Abbreviation H := demo_height.

Lemma damage_accumulates_witness :
  NoDup (List.map e_id (enemies demo_volley))
  /\ In demo_grunt (enemies demo_volley)
  /\ length (overlapping (16 / 1000) demo_grunt (bullets demo_volley)) = 3%nat
  /\ default 0 (enemiesToDamage (marks (simulate W H 16 demo_volley)) !! 1) = 30
  /\ outcome W H (apply_damage (enemiesToDamage (marks (simulate W H 16 demo_volley)))
                               demo_grunt) = Killed
  /\ newCoreHp (toll (simulate W H 16 demo_volley)) = 100.
Proof.
  assert (Hnd : NoDup (List.map e_id (enemies demo_volley)))
    by (apply (bool_decide_unpack _); vm_compute; exact I).
  assert (Hin : In demo_grunt (enemies demo_volley)) by (simpl; auto).
  destruct (damage_accumulates W H 16 demo_volley demo_grunt Hnd Hin)
    as (Hdmg & _ & _ & _ & Hcore & Hkill).
  split; [exact Hnd|]. split; [exact Hin|]. split; [reflexivity|].
  split; [exact Hdmg|]. split.
  - apply Hkill. reflexivity.
  - rewrite Hcore. reflexivity.
Defined.

Lemma no_division_by_zero_witness :
  reachable W H demo_on_core
  /\ In demo_runner (enemies demo_on_core)
  /\ is_zero (distToCore W H demo_runner) = true
  /\ outcome W H (apply_damage (enemiesToDamage (marks (simulate W H 16 demo_on_core)))
                               demo_runner) = ReachedCore
  /\ newCoreHp (toll (simulate W H 16 demo_on_core)) <= 100 - 10
  /\ enemies (commit (simulate W H 16 demo_on_core) demo_on_core) = [].
Proof.
  assert (Hreach : reachable W H demo_on_core).
  { apply reachable_step with demo_arrival; [|apply step_frame].
    apply reachable_step with initial; [apply reachable_initial|apply step_fetch]. }
  assert (Hin : In demo_runner (enemies demo_on_core)) by (vm_compute; auto).
  assert (Hzero : is_zero (distToCore W H demo_runner) = true) by reflexivity.
  destruct (no_division_by_zero W H 16 demo_on_core demo_runner Hreach Hin)
    as [_ Hcenter].
  destruct (Hcenter Hzero) as (_ & _ & _ & Hcore).
  destruct (Hcore eq_refl) as (Hout & _ & Hhp).
  split; [exact Hreach|]. split; [exact Hin|]. split; [exact Hzero|].
  split; [exact Hout|]. split; [exact Hhp|]. reflexivity.
Defined.

Lemma game_state_transitions_witness :
  step W H demo_over (fireTick W H 5 demo_over)
  /\ fireTick W H 5 demo_over = demo_over
  /\ enemies (frame W H 5 demo_random 16 demo_over) = enemies demo_over
  /\ bullets (frame W H 5 demo_random 16 demo_over) = bullets demo_over.
Proof.
  assert (Hstep : step W H demo_over (fireTick W H 5 demo_over)) by apply step_fire.
  assert (Hterm : gameState demo_over <> playing) by (simpl; discriminate).
  destruct (game_state_transitions W H _ _ Hstep) as [_ Hfrozen].
  destruct (Hfrozen Hterm) as (Hsame & _ & Hframe & _).
  split; [exact Hstep|]. split; [exact Hsame|]. apply Hframe.
Defined.

Lemma spawnWave_unknown_wave_witness :
  (forall w, In w (waves demo_cleared) -> wd_wave w <> 3)
  /\ spawnWave W H 5 demo_random 3 demo_cleared = setGameState victory demo_cleared
  /\ enemies (spawnWave W H 5 demo_random 3 demo_cleared) = []
  /\ currentWave (spawnWave W H 5 demo_random 3 demo_cleared) = 1.
Proof.
  assert (Hnone : forall w, In w (waves demo_cleared) -> wd_wave w <> 3).
  { intros w [<-|[<-|[]]]; simpl; lia. }
  destruct (spawnWave_unknown_wave W H 5 demo_random 3 demo_cleared Hnone)
    as (Hs' & _ & Hes & Hcw & _).
  split; [exact Hnone|]. split; [exact Hs'|]. split; [exact Hes|exact Hcw].
Defined.

Lemma core_hit_points_witness :
  gameState demo_last_stand = playing
  /\ coreHp (frame W H 5 demo_random 16 demo_last_stand) = 0
  /\ gameState (frame W H 5 demo_random 16 demo_last_stand) = gameover
  /\ requested_wave W H 16 demo_last_stand = None
  /\ currentWave (frame W H 5 demo_random 16 demo_last_stand) = 1
  /\ enemies (frame W H 5 demo_random 16 demo_last_stand) = [].
Proof.
  assert (Hp : gameState demo_last_stand = playing) by reflexivity.
  destruct (core_hit_points W H 5 demo_random 16 demo_last_stand Hp)
    as (_ & Hhp & Hover).
  assert (Hzero : coreHp (frame W H 5 demo_random 16 demo_last_stand) = 0)
    by (rewrite Hhp; reflexivity).
  destruct Hover as (Hgs & Hreq & Hcw & Hes); [rewrite Hzero; lia|].
  split; [exact Hp|]. split; [exact Hzero|]. split; [exact Hgs|].
  split; [exact Hreq|]. split; [exact Hcw|]. rewrite Hes. reflexivity.
Defined.


(** Of the two equally near enemies the fire controller aims at the one
    it meets first. *)
Example fireTick_first_of_equals :
  fireTick W H 5 demo_wave2
  = setBullets [ mkBullet 5 400 300 1 0 5 ] demo_wave2
  /\ newBullet W H 5 demo_near = mkBullet 5 400 300 1 0 5
  /\ distToCore W H demo_near = distToCore W H demo_near'.
Proof. repeat split; reflexivity. Qed.

(** A tick that finds the nearest enemy exactly on the core divides zero
    by zero: the bullet it emits has no direction. *)
Example fireTick_on_core :
  bullets (fireTick W H 77 demo_on_core) = [ mkBullet 77 400 300 nan nan 5 ].
Proof. reflexivity. Qed.

Lemma out_of_bounds_removed_witness :
  gameState demo_edge = playing
  /\ In demo_stray (bullets demo_edge)
  /\ out_of_bounds W H (advance (1000 / 1000) demo_stray) = true
  /\ ~ In (advance (1000 / 1000) demo_stray) (bullets (frame W H 5 demo_random 1000 demo_edge)).
Proof.
  assert (Hp : gameState demo_edge = playing) by reflexivity.
  assert (Hin : In demo_stray (bullets demo_edge)) by (simpl; auto).
  assert (Hoob : out_of_bounds W H (advance (1000 / 1000) demo_stray) = true) by reflexivity.
  destruct (out_of_bounds_removed W H 5 demo_random 1000 demo_edge demo_stray Hp Hin Hoob)
    as [Hgone _].
  auto.
Defined.

Lemma wave_number_advances_witness :
  gameState demo_cleared = playing
  /\ requested_wave W H 16 demo_cleared = Some 2
  /\ currentWave (frame W H 5 demo_random 16 demo_cleared) = 2
  /\ List.map (fun e => (e_id e, e_type e, e_hp e))
              (enemies (frame W H 5 demo_random 16 demo_cleared))
     = [ (5, "fast"%string, Num 5); (6, "tank"%string, Num 50); (7, "boss"%string, Num 10) ].
Proof.
  assert (Hp : gameState demo_cleared = playing) by reflexivity.
  destruct (wave_number_advances W H 5 demo_random 16 demo_cleared Hp)
    as (Hnext & _ & _ & _).
  destruct Hnext as (Hreq & _ & Hwave);
    [reflexivity | simpl; discriminate | reflexivity |].
  destruct (Hwave (mkWaveData 2 [ mkEnemyData "fast" 1; mkEnemyData "tank" 1;
                                  mkEnemyData "boss" 1 ]) eq_refl) as [Hcw Hes].
  split; [exact Hp|]. split; [exact Hreq|]. split; [exact Hcw|].
  rewrite Hes. reflexivity.
Defined.

(** Wave 2 of the catalog, spawned with the clock at 5: three enemies
    below the bottom edge, the unlisted kind ["boss"] with the [normal]
    profile. *)
Example spawnWave_wave2 :
  enemies (spawnWave W H 5 demo_random 2 demo_cleared)
  = [ mkEnemy 5 400 610 (Num 5) "fast" 10;
      mkEnemy 6 400 625 (Num 50) "tank" 25;
      mkEnemy 7 400 615 (Num 10) "boss" 15 ].
Proof. reflexivity. Qed.

(** C10.  There is a state in which a projectile whose advanced position
    is outside the viewport also overlaps an enemy: the frame both removes
    the projectile and takes the full 10 hit points from the enemy. *)
Theorem out_of_bounds_bullet_still_hits :
  exists (stageWidth stageHeight timeDiff : float) (s : State) (b : Bullet) (e : Enemy),
    let delta := (timeDiff / 1000)%float in
    let p := simulate stageWidth stageHeight timeDiff s in
    gameState s = playing
    /\ bullets s = [ b ] /\ enemies s = [ e ]
    /\ out_of_bounds stageWidth stageHeight (advance delta b) = true
    /\ overlaps (advance delta b) e = true
    /\ elements (bulletsToRemove (marks p)) = [ b_id b ]
    /\ enemiesToDamage (marks p) !! e_id e = Some 10
    /\ e_hp e = Num 50
    /\ forall now random,
         bullets (frame stageWidth stageHeight now random timeDiff s) = []
         /\ List.map e_hp (enemies (frame stageWidth stageHeight now random timeDiff s))
            = [ Num 40 ].
Proof.
  exists W, H, 1000%float, demo_edge, demo_stray, demo_lurker.
  repeat split; reflexivity.
Qed.

(** C6, at a kind that names an inherited property.  The stat table does
    not list ["toString"], yet the lookup finds the method of that name and
    the fallback is not taken: the enemy spawned for it has neither the
    hit points nor the radius of the [normal] profile, and the coordinate
    that the radius enters is not a number. *)
Theorem spawnWave_inherited_kind :
  in_stat_table "toString" = false
  /\ find_wave demo_odd_catalog 1 = Some (mkWaveData 1 [ mkEnemyData "toString" 1 ])
  /\ ENEMY_STATS_or_normal "toString" <> stats_normal
  /\ ENEMY_STATS_or_normal "toString" <> stat_profile "toString"
  /\ enemies (spawnWave W H 1000 demo_random 1 (setWaves demo_odd_catalog initial))
     = [ mkEnemy 1000 400 nan NaN "toString" nan ]
  /\ st_hp stats_normal = Num 10
  /\ st_radius stats_normal = 15%float.
Proof.
  repeat split; try reflexivity; discriminate.
Qed.

(** ** Instances of the further properties *)

Lemma demo_on_core_reachable : reachable W H demo_on_core.
Proof.
  apply reachable_step with demo_arrival; [|apply step_frame].
  apply reachable_step with initial; [apply reachable_initial|apply step_fetch].
Qed.

Lemma demo_wave1_reachable : reachable W H demo_wave1.
Proof.
  apply reachable_step with initial; [apply reachable_initial|apply step_fetch].
Qed.

Lemma demo_haunted_reachable : reachable W H demo_haunted.
Proof.
  apply reachable_step with initial; [apply reachable_initial|apply step_fetch].
Qed.


Lemma game_over_iff_core_depleted_witness :
  reachable W H demo_on_core
  /\ gameState demo_on_core <> gameover
  /\ 0 < coreHp demo_on_core.
Proof.
  pose proof demo_on_core_reachable as Hreach.
  destruct (game_over_iff_core_depleted W H demo_on_core Hreach) as (_ & _ & Halive).
  assert (Hnot : gameState demo_on_core <> gameover) by (vm_compute; discriminate).
  split; [exact Hreach|]. split; [exact Hnot|]. exact (Halive Hnot).
Defined.

Lemma victory_means_catalog_exhausted_witness :
  reachable W H demo_won
  /\ gameState demo_won = victory
  /\ enemies demo_won = []
  /\ 0 < coreHp demo_won.
Proof.
  assert (Hreach : reachable W H demo_won)
    by (apply reachable_step with demo_on_core;
        [apply demo_on_core_reachable | apply step_frame]).
  assert (Hv : gameState demo_won = victory) by reflexivity.
  destruct (victory_means_catalog_exhausted W H demo_won Hreach Hv) as (_ & _ & Hes & Hhp).
  auto.
Defined.

Lemma current_wave_in_catalog_witness :
  reachable W H demo_on_core
  /\ currentWave demo_on_core <> 0
  /\ exists w, In w (waves demo_on_core) /\ wd_wave w = currentWave demo_on_core.
Proof.
  pose proof demo_on_core_reachable as Hreach.
  destruct (current_wave_in_catalog W H demo_on_core Hreach) as (_ & Hin & _).
  assert (Hcw : currentWave demo_on_core <> 0) by (vm_compute; discriminate).
  split; [exact Hreach|]. split; [exact Hcw|]. exact (Hin Hcw).
Defined.

Lemma idle_without_catalog_witness :
  reachable W H (fireTick W H 5 initial)
  /\ waves (fireTick W H 5 initial) = []
  /\ fireTick W H 5 initial = initial.
Proof.
  assert (Hreach : reachable W H (fireTick W H 5 initial))
    by (apply reachable_step with initial; [apply reachable_initial | apply step_fire]).
  assert (Hws : waves (fireTick W H 5 initial) = []) by reflexivity.
  split; [exact Hreach|]. split; [exact Hws|].
  exact (idle_without_catalog W H _ Hreach Hws).
Defined.

Lemma live_enemies_are_alive_witness :
  reachable W H demo_on_core
  /\ In demo_runner (enemies demo_on_core)
  /\ jsnum_le0 (e_hp demo_runner) = false.
Proof.
  pose proof demo_on_core_reachable as Hreach.
  assert (Hin : In demo_runner (enemies demo_on_core)) by (vm_compute; auto).
  split; [exact Hreach|]. split; [exact Hin|].
  exact (live_enemies_are_alive W H demo_on_core demo_runner Hreach Hin).
Defined.

Lemma enemies_true_to_kind_witness :
  reachable W H demo_on_core
  /\ In demo_runner (enemies demo_on_core)
  /\ true_to_kind demo_runner.
Proof.
  pose proof demo_on_core_reachable as Hreach.
  assert (Hin : In demo_runner (enemies demo_on_core)) by (vm_compute; auto).
  split; [exact Hreach|]. split; [exact Hin|].
  exact (enemies_true_to_kind W H demo_on_core demo_runner Hreach Hin).
Defined.

Lemma enemy_ids_unique_witness :
  reachable W H demo_wave1
  /\ List.map e_id (enemies demo_wave1) = [ 1000; 1001 ]
  /\ forall e e', In e (enemies demo_wave1) -> In e' (enemies demo_wave1) ->
                  e_id e = e_id e' -> e = e'.
Proof.
  pose proof demo_wave1_reachable as Hreach.
  split; [exact Hreach|]. split; [reflexivity|].
  intros e e'. exact (enemy_ids_unique W H demo_wave1 e e' Hreach).
Defined.

Lemma frame_only_advances_bullets_witness :
  gameState demo_volley = playing
  /\ (length (bullets (frame W H 5 demo_random 16 demo_volley))
      <= length (bullets demo_volley))%nat.
Proof.
  assert (Hp : gameState demo_volley = playing) by reflexivity.
  destruct (frame_only_advances_bullets W H 5 demo_random 16 demo_volley Hp) as [_ Hle].
  auto.
Defined.

Lemma bullet_flies_on_witness :
  gameState demo_calm = playing
  /\ NoDup (List.map b_id (bullets demo_calm))
  /\ In demo_shot (bullets demo_calm)
  /\ flies_on W H (16 / 1000) (enemies demo_calm) demo_shot = true
  /\ In (advance (16 / 1000) demo_shot) (bullets (frame W H 5 demo_random 16 demo_calm)).
Proof.
  assert (Hp : gameState demo_calm = playing) by reflexivity.
  assert (Hnd : NoDup (List.map b_id (bullets demo_calm)))
    by (apply (bool_decide_unpack _); vm_compute; exact I).
  assert (Hin : In demo_shot (bullets demo_calm)) by (simpl; auto).
  assert (Hfly : flies_on W H (16 / 1000) (enemies demo_calm) demo_shot = true)
    by reflexivity.
  split; [exact Hp|]. split; [exact Hnd|]. split; [exact Hin|]. split; [exact Hfly|].
  exact (bullet_flies_on W H 5 demo_random 16 demo_calm demo_shot Hp Hnd Hin Hfly).
Defined.

Lemma committed_enemies_witness :
  NoDup (List.map e_id (enemies demo_volley))
  /\ List.map e_id (enemies (commit (simulate W H 16 demo_volley) demo_volley)) = [ 2 ].
Proof.
  assert (Hnd : NoDup (List.map e_id (enemies demo_volley)))
    by (apply (bool_decide_unpack _); vm_compute; exact I).
  split; [exact Hnd|].
  rewrite (committed_enemies W H 16 demo_volley Hnd). reflexivity.
Defined.

Lemma quiet_frame_witness :
  gameState demo_calm = playing
  /\ forallb (flies_on W H (16 / 1000) (enemies demo_calm)) (bullets demo_calm) = true
  /\ bullets (frame W H 5 demo_random 16 demo_calm)
     = List.map (advance (16 / 1000)) (bullets demo_calm).
Proof.
  assert (Hp : gameState demo_calm = playing) by reflexivity.
  assert (Hq : forallb (flies_on W H (16 / 1000) (enemies demo_calm)) (bullets demo_calm)
               = true) by reflexivity.
  destruct (quiet_frame W H 5 demo_random 16 demo_calm Hp Hq) as (_ & _ & Hbs & _).
  auto.
Defined.

Lemma surviving_enemy_witness :
  let dmg := enemiesToDamage (marks (simulate W H 16 demo_volley)) in
  let e' := update_enemy W H (16 / 1000) dmg demo_tank in
  In e' (enemies (commit (simulate W H 16 demo_volley) demo_volley))
  /\ exists e, In e (enemies demo_volley)
               /\ e_id e' = e_id e /\ e_type e' = e_type e /\ e_radius e' = e_radius e.
Proof.
  intros dmg e'.
  assert (Hin : In e' (enemies (commit (simulate W H 16 demo_volley) demo_volley)))
    by (left; reflexivity).
  split; [exact Hin|].
  destruct (surviving_enemy W H 16 demo_volley e' Hin) as (e & He & Hid & Hty & Hrad & _).
  eauto.
Defined.

Lemma frame_adds_no_enemy_witness :
  requested_wave W H 16 demo_volley = None
  /\ (length (enemies (frame W H 5 demo_random 16 demo_volley))
      <= length (enemies demo_volley))%nat.
Proof.
  assert (Hreq : requested_wave W H 16 demo_volley = None) by reflexivity.
  destruct (frame_adds_no_enemy W H 5 demo_random 16 demo_volley Hreq) as [_ Hle].
  auto.
Defined.

Lemma fireTick_out_of_reach_witness :
  (forall e, In e (enemies demo_haunted) -> (distToCore W H e <? infinity)%float = false)
  /\ enemies demo_haunted = [ demo_ghost ]
  /\ fireTick W H 5 demo_haunted = demo_haunted.
Proof.
  assert (Hfar : forall e, In e (enemies demo_haunted) ->
                           (distToCore W H e <? infinity)%float = false).
  { intros e [<-|[]]. reflexivity. }
  split; [exact Hfar|]. split; [reflexivity|].
  exact (fireTick_out_of_reach W H 5 demo_haunted Hfar).
Defined.

Lemma lost_bullet_stays_witness :
  gameState demo_misfire = playing
  /\ NoDup (List.map b_id (bullets demo_misfire))
  /\ In demo_dud (bullets demo_misfire)
  /\ lost_bullet demo_dud = true
  /\ In (advance (16 / 1000) demo_dud) (bullets (frame W H 5 demo_random 16 demo_misfire)).
Proof.
  assert (Hp : gameState demo_misfire = playing) by reflexivity.
  assert (Hnd : NoDup (List.map b_id (bullets demo_misfire)))
    by (apply (bool_decide_unpack _); vm_compute; exact I).
  assert (Hin : In demo_dud (bullets demo_misfire)) by (left; reflexivity).
  assert (Hlost : lost_bullet demo_dud = true) by reflexivity.
  destruct (lost_bullet_stays W H 5 demo_random 16 demo_misfire demo_dud Hp Hnd Hin Hlost)
    as [Hstays _].
  auto 6.
Defined.

Lemma inherited_kind_makes_ghost_witness :
  find_wave (waves (setWaves demo_odd_catalog initial)) 1
  = Some (mkWaveData 1 [ mkEnemyData "toString" 1 ])
  /\ inherited_key "toString" = true
  /\ exists e, In e (enemies (spawnWave W H 1000 demo_random 1
                                        (setWaves demo_odd_catalog initial)))
               /\ e_type e = "toString"%string /\ ghost e = true.
Proof.
  assert (Hfind : find_wave (waves (setWaves demo_odd_catalog initial)) 1
                  = Some (mkWaveData 1 [ mkEnemyData "toString" 1 ])) by reflexivity.
  assert (Hg : In (mkEnemyData "toString" 1)
                  (wd_enemies (mkWaveData 1 [ mkEnemyData "toString" 1 ])))
    by (left; reflexivity).
  assert (Hpos : 0 < ed_count (mkEnemyData "toString" 1)) by (simpl; lia).
  assert (Hin : inherited_key (ed_type (mkEnemyData "toString" 1)) = true) by reflexivity.
  split; [exact Hfind|]. split; [exact Hin|].
  exact (inherited_kind_makes_ghost W H 1000 demo_random 1 _ _ _ Hfind Hg Hpos Hin).
Defined.

Lemma ghost_blocks_the_waves_witness :
  reachable W H demo_haunted
  /\ In demo_ghost (enemies demo_haunted)
  /\ ghost demo_ghost = true
  /\ forall timeDiff,
       currentWave (rerun_bootstrap W H 5 demo_random demo_haunted
                      (frame W H 5 demo_random timeDiff demo_haunted)) = 1.
Proof.
  pose proof demo_haunted_reachable as Hreach.
  assert (Hin : In demo_ghost (enemies demo_haunted)) by (left; reflexivity).
  assert (Hg : ghost demo_ghost = true) by reflexivity.
  split; [exact Hreach|]. split; [exact Hin|]. split; [exact Hg|].
  intros timeDiff.
  destruct (ghost_blocks_the_waves W H demo_haunted _ demo_ghost Hreach Hin Hg
              (rtc_once _ _ (step_frame W H 5 demo_random timeDiff 5 demo_random
                                        demo_haunted)))
    as (_ & Hcw & _).
  exact Hcw.
Defined.

Lemma spawned_ids_consecutive_witness :
  find_wave (waves demo_cleared) 2
  = Some (mkWaveData 2 [ mkEnemyData "fast" 1; mkEnemyData "tank" 1; mkEnemyData "boss" 1 ])
  /\ List.map e_id (enemies (spawnWave W H 5 demo_random 2 demo_cleared)) = [ 5; 6; 7 ].
Proof.
  assert (Hfind : find_wave (waves demo_cleared) 2
                  = Some (mkWaveData 2 [ mkEnemyData "fast" 1; mkEnemyData "tank" 1;
                                         mkEnemyData "boss" 1 ])) by reflexivity.
  split; [exact Hfind|].
  destruct (spawned_ids_consecutive W H 5 demo_random 2 demo_cleared _ Hfind) as [Hids _].
  rewrite Hids. reflexivity.
Defined.

Lemma spawnWave_first_record_witness :
  waves demo_twice = [ mkWaveData 1 [ mkEnemyData "normal" 1 ] ]
                     ++ demo_twice_first :: [ mkWaveData 2 [ mkEnemyData "tank" 5 ] ]
  /\ wd_wave demo_twice_first = 2
  /\ (forall w', In w' [ mkWaveData 1 [ mkEnemyData "normal" 1 ] ] -> wd_wave w' <> 2)
  /\ List.map e_type (enemies (spawnWave W H 5 demo_random 2 demo_twice))
     = [ "fast"%string ].
Proof.
  assert (Hws : waves demo_twice
                = [ mkWaveData 1 [ mkEnemyData "normal" 1 ] ]
                  ++ demo_twice_first :: [ mkWaveData 2 [ mkEnemyData "tank" 5 ] ])
    by reflexivity.
  assert (Hw : wd_wave demo_twice_first = 2) by reflexivity.
  assert (Hpre : forall w', In w' [ mkWaveData 1 [ mkEnemyData "normal" 1 ] ] ->
                            wd_wave w' <> 2).
  { intros w' [<-|[]]. simpl. lia. }
  split; [exact Hws|]. split; [exact Hw|]. split; [exact Hpre|].
  rewrite (spawnWave_first_record W H 5 demo_random 2 demo_twice _ _ _ Hws Hw Hpre).
  reflexivity.
Defined.

Lemma render_reachable_witness :
  reachable W H demo_on_core
  /\ List.map r_key (v_enemies (render W H demo_on_core)) = [ 1000 ]
  /\ v_overlays (render W H demo_on_core) = [].
Proof.
  pose proof demo_on_core_reachable as Hreach.
  destruct (render_reachable W H demo_on_core Hreach) as (_ & _ & _ & _ & Hplay).
  split; [exact Hreach|]. split; [reflexivity|]. apply Hplay. reflexivity.
Defined.

Lemma frame_ignores_oracles_witness :
  requested_wave W H 16 demo_volley = None
  /\ frame W H 5 demo_random 16 demo_volley
     = frame W H 6 (fun _ => 0.25%float) 16 demo_volley.
Proof.
  assert (Hreq : requested_wave W H 16 demo_volley = None) by reflexivity.
  split; [exact Hreq|].
  exact (frame_ignores_oracles W H 5 6 demo_random (fun _ => 0.25%float) 16
                               demo_volley Hreq).
Defined.

Lemma spawnWave_known_wave_witness :
  find_wave (waves demo_cleared) 2
  = Some (mkWaveData 2 [ mkEnemyData "fast" 1; mkEnemyData "tank" 1; mkEnemyData "boss" 1 ])
  /\ currentWave (spawnWave W H 5 demo_random 2 demo_cleared) = 2
  /\ Z.of_nat (length (enemies (spawnWave W H 5 demo_random 2 demo_cleared))) = 3
  /\ forall e, In e (enemies (spawnWave W H 5 demo_random 2 demo_cleared)) ->
               outside_viewport W H e = true.
Proof.
  assert (Hfind : find_wave (waves demo_cleared) 2
                  = Some (mkWaveData 2 [ mkEnemyData "fast" 1; mkEnemyData "tank" 1;
                                         mkEnemyData "boss" 1 ])) by reflexivity.
  assert (Hcount : Forall (fun g => 0 <= ed_count g)
                     [ mkEnemyData "fast" 1; mkEnemyData "tank" 1; mkEnemyData "boss" 1 ])
    by (repeat constructor; simpl; lia).
  assert (Hkinds : Forall (fun g => inherited_key (ed_type g) = false)
                     [ mkEnemyData "fast" 1; mkEnemyData "tank" 1; mkEnemyData "boss" 1 ])
    by (repeat constructor).
  destruct (spawnWave_known_wave W H 5 demo_random 2 demo_cleared _ Hfind Hcount Hkinds)
    as (_ & Hcw & Hlen & _ & _ & Hout & _).
  split; [exact Hfind|]. split; [exact Hcw|]. split; [exact Hlen|].
  apply Hout. intros r [<-|[<-|[<-|[]]]]; split; reflexivity.
Defined.
